(** * git_sync: shadow-repository mirroring, verified against [main.go]

    The development embeds the single source file of the repository,
    [main.go], together with a model of the external collaborators it
    calls (crypto/sha256, encoding/hex, path/filepath, os and go-git v5),
    and proves or refutes the properties stated about it. *)

From Stdlib Require Import ZArith List Ascii String Lia Bool.
From stdpp Require Import base gmap strings list fin_maps.

Local Open Scope string_scope.

(** ** crypto/sha256

    [sha256.New], [Write] and [Sum(nil)] hash the whole byte string that
    was written: FIPS 180-4 padding followed by the block function of
    [sha256block.go].  A [uint32] is a [Z] reduced modulo 2^32 after each
    addition. *)
Module Sha256.
Local Open Scope Z_scope.

Definition mask32 (x : Z) : Z := Z.land x 0xffffffff.
Definition add32 (x y : Z) : Z := mask32 (x + y).

(** [bits.RotateLeft32(x, -n)] *)
Definition rotr (x n : Z) : Z :=
  mask32 (Z.lor (Z.shiftr x n) (Z.shiftl x (32 - n))).

Definition not32 (x : Z) : Z := Z.lxor x 0xffffffff.

(** The tables of [sha256.go] and [sha256block.go] hold, as FIPS 180-4
    defines them, the first 32 bits of the fractional parts of the cube
    roots ([_K]) and of the square roots ([init0] to [init7]) of the
    first primes.  They are computed here rather than listed. *)
Definition is_prime (n : nat) : bool :=
  forallb (fun d => negb (n mod d =? 0)%nat) (seq 2 (n - 2)).

Definition primes (count : nat) : list Z :=
  map Z.of_nat (firstn count (filter is_prime (seq 2 310))).

(** The integer cube root, bit by bit from bit [n - 1] down. *)
Fixpoint icbrt (n : nat) (x acc : Z) : Z :=
  match n with
  | O => acc
  | S n' =>
      let c := acc + Z.shiftl 1 (Z.of_nat n') in
      if c * c * c <=? x then icbrt n' x c else icbrt n' x acc
  end.

Definition frac_cbrt (p : Z) : Z := mask32 (icbrt 36 (Z.shiftl p 96) 0).
Definition frac_sqrt (p : Z) : Z := mask32 (Z.sqrt (Z.shiftl p 64)).

Definition _K : list Z := Eval vm_compute in map frac_cbrt (primes 64).

(** The eight chaining words [dig.h]. *)
Record digest := Digest {
  h0 : Z; h1 : Z; h2 : Z; h3 : Z; h4 : Z; h5 : Z; h6 : Z; h7 : Z }.

Definition init : digest :=
  Eval vm_compute in
    match map frac_sqrt (primes 8) with
    | [a; b; c; d; e; f; g; h] => Digest a b c d e f g h
    | _ => Digest 0 0 0 0 0 0 0 0
    end.

Definition word_at (w : list Z) (i : nat) : Z := nth i w 0.

(** [w[i] = uint32(p[j])<<24 | uint32(p[j+1])<<16 | uint32(p[j+2])<<8 | uint32(p[j+3])] *)
Fixpoint load_words (n : nat) (p : list Z) : list Z :=
  match n with
  | O => []
  | S n' =>
      match p with
      | b0 :: b1 :: b2 :: b3 :: p' =>
          Z.lor (Z.lor (Z.lor (Z.shiftl b0 24) (Z.shiftl b1 16)) (Z.shiftl b2 8)) b3
            :: load_words n' p'
      | _ => []
      end
  end.

(** The loop [for i := 16; i < 64; i++] filling the message schedule;
    [k] counts the remaining iterations and [w] holds [w[0..i-1]]. *)
Fixpoint extend (k : nat) (w : list Z) : list Z :=
  match k with
  | O => w
  | S k' =>
      let i := length w in
      let v1 := word_at w (i - 2) in
      let t1 := Z.lxor (Z.lxor (rotr v1 17) (rotr v1 19)) (Z.shiftr v1 10) in
      let v2 := word_at w (i - 15) in
      let t2 := Z.lxor (Z.lxor (rotr v2 7) (rotr v2 18)) (Z.shiftr v2 3) in
      extend k'
        (w ++ [add32 (add32 (add32 t1 (word_at w (i - 7))) t2) (word_at w (i - 16))])
  end.

(** One iteration of the compression loop on the working variables. *)
Definition round (s : digest) (kw : Z * Z) : digest :=
  let '(Digest a b c d e f g h) := s in
  let t1 :=
    add32 (add32 (add32 (add32 h
      (Z.lxor (Z.lxor (rotr e 6) (rotr e 11)) (rotr e 25)))
      (Z.lxor (Z.land e f) (Z.land (not32 e) g)))
      (fst kw)) (snd kw) in
  let t2 :=
    add32 (Z.lxor (Z.lxor (rotr a 2) (rotr a 13)) (rotr a 22))
          (Z.lxor (Z.lxor (Z.land a b) (Z.land a c)) (Z.land b c)) in
  Digest (add32 t1 t2) a b c (add32 d t1) e f g.

(** The body of [blockGeneric] for one 64-byte chunk. *)
Definition block (dig : digest) (chunk : list Z) : digest :=
  let w := extend 48 (load_words 16 chunk) in
  let s := fold_left round (combine _K w) dig in
  Digest (add32 (h0 dig) (h0 s)) (add32 (h1 dig) (h1 s))
         (add32 (h2 dig) (h2 s)) (add32 (h3 dig) (h3 s))
         (add32 (h4 dig) (h4 s)) (add32 (h5 dig) (h5 s))
         (add32 (h6 dig) (h6 s)) (add32 (h7 dig) (h7 s)).

(** [for len(p) >= chunk { ...; p = p[chunk:] }]; [n] bounds the number
    of chunks. *)
Fixpoint blocks (n : nat) (dig : digest) (p : list Z) : digest :=
  match n with
  | O => dig
  | S n' =>
      if (length p <? 64)%nat then dig
      else blocks n' (block dig (firstn 64 p)) (skipn 64 p)
  end.

(** Big-endian bytes of a word, most significant first. *)
Definition be_bytes (nbytes : nat) (x : Z) : list Z :=
  map (fun i => Z.land (Z.shiftr x (8 * Z.of_nat i)) 0xff) (rev (seq 0 nbytes)).

(** [checkSum]: a 0x80 byte, zeros up to 56 modulo 64, then the length
    in bits as 8 big-endian bytes. *)
Definition pad (msg : list Z) : list Z :=
  let len := Z.of_nat (length msg) in
  let zeros := Z.to_nat ((55 - len) mod 64) in
  msg ++ [0x80] ++ repeat 0 zeros ++ be_bytes 8 (Z.shiftl len 3).

Definition words (d : digest) : list Z :=
  [h0 d; h1 d; h2 d; h3 d; h4 d; h5 d; h6 d; h7 d].

(** [[]byte(s)] *)
Fixpoint bytes_of_string (s : string) : list Z :=
  match s with
  | EmptyString => []
  | String c s' => Z.of_N (N_of_ascii c) :: bytes_of_string s'
  end.

(** [hasher.Write(msg); hasher.Sum(nil)]: the 32 digest bytes. *)
Definition sum (msg : list Z) : list Z :=
  let p := pad msg in
  flat_map (be_bytes 4) (words (blocks (length p) init p)).
End Sha256.

(** ** encoding/hex *)
Module Hex.
Definition hextable : string := "0123456789abcdef".

Definition digit (n : Z) : ascii :=
  match String.get (Z.to_nat n) hextable with
  | Some c => c
  | None => "0"%char
  end.

(** [dst[j] = hextable[v>>4]; dst[j+1] = hextable[v&0x0f]] *)
Fixpoint EncodeToString (src : list Z) : string :=
  match src with
  | [] => EmptyString
  | v :: src' =>
      String (digit (Z.shiftr v 4))
        (String (digit (Z.land v 0x0f)) (EncodeToString src'))
  end.
End Hex.

(** ** path/filepath (Unix separators)

    [Join] concatenates from the first non-empty element on and cleans
    the result; [Clean] is modelled on path components: empty and [.]
    elements are dropped, [..] removes the preceding real element or,
    in a relative path with nothing left to remove, is kept. *)
Module Filepath.
Definition Separator : ascii := "/"%char.

Fixpoint split (s : string) : list string :=
  match s with
  | EmptyString => [EmptyString]
  | String c s' =>
      if Ascii.eqb c Separator then EmptyString :: split s'
      else match split s' with
           | [] => [String c EmptyString]
           | x :: xs => String c x :: xs
           end
  end.

(** [strings.Join] *)
Fixpoint join (sep : string) (l : list string) : string :=
  match l with
  | [] => EmptyString
  | [x] => x
  | x :: l' => x ++ sep ++ join sep l'
  end.

(** One element of the scan; [out] is the output so far, last
    element first. *)
Definition step (rooted : bool) (out : list string) (e : string) : list string :=
  if String.eqb e "" then out
  else if String.eqb e "." then out
  else if String.eqb e ".." then
    match out with
    | top :: rest =>
        if String.eqb top ".." then (if rooted then out else e :: out)
        else rest
    | [] => if rooted then out else [e]
    end
  else e :: out.

Definition Clean (path : string) : string :=
  match path with
  | EmptyString => "."
  | String c _ =>
      let rooted := Ascii.eqb c Separator in
      let out := rev (fold_left (step rooted) (split path) []) in
      if rooted then String Separator (join "/" out)
      else match out with
           | [] => "."
           | _ => join "/" out
           end
  end.

Fixpoint Join (elem : list string) : string :=
  match elem with
  | [] => EmptyString
  | e :: rest =>
      if String.eqb e "" then Join rest
      else Clean (join "/" elem)
  end.
End Filepath.


(** ** Go values

    A Go pointer is an [option] ([None] is [nil]); dereferencing [nil]
    panics.  A Go [error] is an [option error].  The sentinel errors are
    those of go-git that the program or the library model distinguishes;
    every other failure is [ErrOther] with its message. *)
Inductive error :=
| ErrRepositoryNotExists
| ErrRepositoryAlreadyExists
| ErrRemoteNotFound
| ErrRemoteExists
| ErrEmptyRemoteRepository
| NoErrAlreadyUpToDate
| ErrOther (msg : string).

Global Instance error_eq_dec : EqDecision error.
Proof. solve_decision. Defined.

(** *** main.go, lines 34-51: the configuration *)
Record RepositoryAccess := {
  RepoName : string;
  RepoUrl : string;
  RepoPemFileName : string;
  RepoPemFilePassword : string;
  RepoSkipHostKeyValidation : bool }.

Record RepositorySyncOption := {
  SourceName : string;
  DestinationName : string }.

(** Both slices hold pointers, which [json.Unmarshal] leaves [nil] for a
    JSON [null] element. *)
Record RepositoriesSyncConfiguration := {
  ShadowsLocationBasePath : string;
  Repositories : list (option RepositoryAccess);
  SyncOptions : list (option RepositorySyncOption) }.

(** ** go-git values *)
Definition DefaultRemoteName : string := "origin".
Definition mirrorRefSpec : string := "+refs/*:refs/*".

(** [config.RemoteConfig] *)
Record RemoteConfig := {
  Name : string;
  URLs : list string;
  Fetch : list string }.

Global Instance RemoteConfig_eq_dec : EqDecision RemoteConfig.
Proof. solve_decision. Defined.

(** [ssh.PublicKeys]; [HostKeyCallback] is either the default or
    [InsecureIgnoreHostKey]. *)
Record PublicKeys := {
  User : string;
  PemFile : string;
  Password : string;
  InsecureIgnoreHostKey : bool }.

(** What a repository keeps on disk: the [remote] sections of its
    configuration file and its hash references. *)
Record Storage := {
  Remotes : gmap string RemoteConfig;
  References : gmap string string }.

(** [*git.Repository] on a filesystem storer: the handle names the
    directory, the contents live in the world. *)
Record Repository := { Storer : string }.

(** [*git.Remote]: a storer [r_s] and an in-memory configuration [r_c].  The
    filesystem storer parses the configuration file anew on each
    [Config()] call, so [r_c] is private to the [Remote] value. *)
Record Remote := { r_s : string; r_c : RemoteConfig }.

Record FetchOptions := {
  fo_RemoteName : string;
  fo_RefSpecs : list string;
  fo_Auth : option PublicKeys }.

Record PushOptions := {
  po_RemoteName : string;
  po_RefSpecs : list string;
  po_Auth : option PublicKeys }.

(** ** The world

    Calls that leave the process are recorded in a trace.  A fetch or
    push records the whole URL list of the [Remote] value it runs on;
    the library connects to the first one. *)
Inductive event :=
| EvMkdirAll (path : string) (perm : Z)
| EvKeyRead (user file password : string)
| EvPlainOpen (path : string)
| EvPlainInit (path : string) (bare : bool)
| EvCreateRemote (path : string) (rc : RemoteConfig)
| EvFetch (path : string) (urls specs : list string)
| EvPush (path : string) (urls specs : list string).

Global Instance event_eq_dec : EqDecision event.
Proof. solve_decision. Defined.

(** [disk]: the repositories of the local filesystem by directory;
    [upstream]: the references of the repositories reachable by URL
    (kept apart from the local shadows); [trace]: the calls so far. *)
Record World := {
  disk : gmap string Storage;
  upstream : gmap string (gmap string string);
  trace : list event }.

(** What the environment decides during one run: which system calls
    fail, and with what message.  [foreign_fetch] and [foreign_push]
    stand for the library's reference update under a refspec list other
    than the one this program installs.  [fetch_reached path n]: when a
    fetch into the repository at [path] stops at a reference that it
    cannot write, whether it had come to [n] before; the library walks
    the fetched references in the order of a Go map, which is not
    fixed.  [push_refused url n]: the reason, if any, for which the
    repository at [url] refuses the update of its reference [n]; a
    server decides on each reference of a push by itself. *)
Record Env := {
  mkdir_err : string -> Z -> option string;
  key_err : string -> string -> string -> option string;
  open_err : string -> option string;
  init_err : string -> option string;
  config_read_err : string -> option string;
  config_write_err : string -> option string;
  transport_err : string -> option PublicKeys -> option string;
  foreign_fetch : list string -> gmap string string -> gmap string string
                  -> option error * gmap string string;
  foreign_push : list string -> gmap string string -> gmap string string
                  -> option error * gmap string string;
  fetch_reached : string -> string -> bool;
  push_refused : string -> string -> option string }.

(** ** The monad of the embedding: an environment, a world, and panics *)
Inductive result (A : Type) :=
| Val (a : A)
| Panic.
Arguments Val {A} a.
Arguments Panic {A}.

Definition M (A : Type) : Type := Env -> World -> result A * World.

Global Instance M_ret : MRet M := fun A a _ w => (Val a, w).
Global Instance M_bind : MBind M := fun A B f m env w =>
  match m env w with
  | (Val a, w') => f a env w'
  | (Panic, w') => (Panic, w')
  end.

Definition panic {A} : M A := fun _ w => (Panic, w).
Definition ask : M Env := fun env w => (Val env, w).
Definition get : M World := fun _ w => (Val w, w).

(** The three ways in which a call changes the world. *)
Definition log (e : event) (w : World) : World :=
  {| disk := disk w; upstream := upstream w; trace := trace w ++ [e] |}.

Definition with_disk (d : gmap string Storage) (w : World) : World :=
  {| disk := d; upstream := upstream w; trace := trace w |}.

Definition with_upstream (u : gmap string (gmap string string)) (w : World) : World :=
  {| disk := disk w; upstream := u; trace := trace w |}.

Definition emit (e : event) : M unit := fun _ w => (Val tt, log e w).
Definition set_disk (d : gmap string Storage) : M unit := fun _ w => (Val tt, with_disk d w).
Definition set_upstream (u : gmap string (gmap string string)) : M unit := fun _ w =>
  (Val tt, with_upstream u w).

Definition other (o : option string) : option error := ErrOther <$> o.

(** ** os and ssh *)

(** A Go literal with a leading zero is read in base 8. *)
Definition octal (digits : list Z) : Z :=
  fold_left (fun acc d => 8 * acc + d)%Z digits 0%Z.

Definition os_MkdirAll (path : string) (perm : Z) : M (option error) :=
  _ ← emit (EvMkdirAll path perm);
  env ← ask;
  mret (other (mkdir_err env path perm)).

Definition ssh_NewPublicKeysFromFile (user pemFile password : string)
  : M (option PublicKeys * option error) :=
  _ ← emit (EvKeyRead user pemFile password);
  env ← ask;
  match key_err env user pemFile password with
  | Some msg => mret (None, Some (ErrOther msg))
  | None =>
      mret (Some {| User := user; PemFile := pemFile; Password := password;
                    InsecureIgnoreHostKey := false |}, None)
  end.

(** ** go-git

    The part of go-git v5 that the program calls, on a filesystem
    storer.  The configuration is read from the storer at each
    [Config()] and written only by [SetConfig], which of the calls below
    [CreateRemote] alone makes.  A fetch or a push connects to the first
    URL of the [Remote] value it runs on ([r.c.URLs[0]], which panics
    on an empty list) and, when the connection succeeds, updates the
    references one by one: a fetch writes each of them as a file of the
    storer and stops at the first that cannot be written; a push leaves
    the decision on each of them to the other side.  Either ends in an
    error when a reference was refused, after the others have been
    written.  Repositories reached through a URL are kept apart from
    the shadows on the local disk. *)
Module Git.
Fixpoint count (ch : ascii) (str : string) : nat :=
  match str with
  | EmptyString => 0
  | String a str' => (if Ascii.eqb a ch then 1 else 0) + count ch str'
  end.

Fixpoint before (ch : ascii) (str : string) : string :=
  match str with
  | EmptyString => EmptyString
  | String a str' => if Ascii.eqb a ch then EmptyString else String a (before ch str')
  end.

Fixpoint after (ch : ascii) (str : string) : string :=
  match str with
  | EmptyString => EmptyString
  | String a str' => if Ascii.eqb a ch then str' else after ch str'
  end.

(** [RefSpec.Validate]: one separator, not in last position, and the
    same number of wildcards, at most one, on both sides. *)
Definition RefSpec_Validate (spec : string) : bool :=
  let ws := count "*" (before ":" spec) in
  let wd := count "*" (after ":" spec) in
  (count ":" spec =? 1)%nat && negb (String.eqb (after ":" spec) "")
  && (ws =? wd)%nat && (ws <? 2)%nat.

(** [RemoteConfig.Validate] *)
Definition RemoteConfig_Validate (rc : RemoteConfig) : option error :=
  if String.eqb (Name rc) "" then Some (ErrOther "remote config: empty name")
  else match URLs rc with
       | [] => Some (ErrOther "remote config: empty URL")
       | _ =>
           if forallb RefSpec_Validate (Fetch rc) then None
           else Some (ErrOther "malformed refspec")
       end.

(** The references selected by the source side [refs/*] of the mirror
    refspec; its destination side maps each name to itself. *)
Definition mirror_refs (m : gmap string string) : gmap string string :=
  filter (fun kv => String.prefix "refs/" kv.1 = true) m.

(** What a forced update of [dst] from [src] under [+refs/*:refs/*]
    has to write: the selected references that [dst] does not hold with
    the same hash. *)
Definition pending (src dst : gmap string string) : gmap string string :=
  filter (fun kv => dst !! kv.1 <> Some kv.2) (mirror_refs src).

(** The update when every write is accepted: every selected reference
    is written, nothing is deleted.  Without any change the library
    reports [NoErrAlreadyUpToDate]. *)
Definition mirror_merge (src dst : gmap string string)
  : option error * gmap string string :=
  let dst' := mirror_refs src ∪ dst in
  (if decide (dst' = dst) then Some NoErrAlreadyUpToDate else None, dst').

(** The update, reference by reference.  [refused n] is the reason for
    which the reference [n] cannot be written.  When a pending
    reference is refused the call ends in an error, and of the pending
    references those have been written that were not refused and that
    the call [reached]; nothing is deleted. *)
Definition mirror_update (refused : string -> option string) (reached : string -> bool)
    (src dst : gmap string string) : option error * gmap string string :=
  let todo := pending src dst in
  match omap (fun kv => refused kv.1) (map_to_list todo) with
  | [] => mirror_merge src dst
  | msg :: _ =>
      (Some (ErrOther msg),
       filter (fun kv => refused kv.1 = None /\ reached kv.1 = true) todo ∪ dst)
  end.

(** [dir_of n m]: the name [m] lies in the directory [n]. *)
Definition dir_of (n m : string) : bool := String.prefix (n ++ "/") m.

(** A filesystem storer keeps each reference in the file of its name
    below the repository directory.  The file [n] cannot be written
    while a stored reference lies in the directory [n], nor while one
    is a file on the path to [n]: the fetch does not remove what the
    source no longer has. *)
Definition blocked (refs : gmap string string) (n : string) : option string :=
  if bool_decide (map_Exists (fun m _ => dir_of n m = true) refs)
  then Some "is a directory"
  else if bool_decide (map_Exists (fun m _ => dir_of m n = true) refs)
       then Some "not a directory"
       else None.

(** The reference update of a fetch into the repository at [path]:
    under the refspecs of the options or, without any, those of the
    remote's configuration. *)
Definition fetch_update (env : Env) (path : string) (rc : RemoteConfig) (o : FetchOptions)
    (rrefs refs : gmap string string) : option error * gmap string string :=
  let specs := match fo_RefSpecs o with [] => Fetch rc | l => l end in
  if decide (specs = [mirrorRefSpec])
  then mirror_update (blocked refs) (fetch_reached env path) rrefs refs
  else foreign_fetch env specs rrefs refs.

(** The reference update of a push to the repository at [url]; without
    refspecs in the options the library pushes the branches.  Every
    reference of the push comes before the other side. *)
Definition push_update (env : Env) (url : string) (o : PushOptions)
    (refs rrefs : gmap string string) : option error * gmap string string :=
  let specs := match po_RefSpecs o with
               | [] => ["refs/heads/*:refs/heads/*"]
               | l => l
               end in
  if decide (specs = [mirrorRefSpec])
  then mirror_update (push_refused env url) (fun _ => true) refs rrefs
  else foreign_push env specs refs rrefs.

Definition storage_at (w : World) (path : string) : Storage :=
  default {| Remotes := ∅; References := ∅ |} (disk w !! path).

(** [git.PlainOpen] *)
Definition PlainOpen (path : string) : M (option Repository * option error) :=
  _ ← emit (EvPlainOpen path);
  env ← ask;
  w ← get;
  match open_err env path with
  | Some msg => mret (None, Some (ErrOther msg))
  | None =>
      match disk w !! path with
      | None => mret (None, Some ErrRepositoryNotExists)
      | Some _ => mret (Some {| Storer := path |}, None)
      end
  end.

(** [git.PlainInit]: refuses a directory that already holds a
    repository, otherwise creates an empty one. *)
Definition PlainInit (path : string) (bare : bool)
  : M (option Repository * option error) :=
  _ ← emit (EvPlainInit path bare);
  env ← ask;
  w ← get;
  match init_err env path with
  | Some msg => mret (None, Some (ErrOther msg))
  | None =>
      match disk w !! path with
      | Some _ => mret (None, Some ErrRepositoryAlreadyExists)
      | None =>
          _ ← set_disk (<[path := {| Remotes := ∅; References := ∅ |}]> (disk w));
          mret (Some {| Storer := path |}, None)
      end
  end.

(** [Repository.Remote]: reads the configuration from the storer and
    wraps the entry found there in a new [Remote]. *)
Definition Repository_Remote (r : option Repository) (name : string)
  : M (option Remote * option error) :=
  match r with
  | None => panic
  | Some r =>
      env ← ask;
      w ← get;
      match config_read_err env (Storer r) with
      | Some msg => mret (None, Some (ErrOther msg))
      | None =>
          match Remotes (storage_at w (Storer r)) !! name with
          | None => mret (None, Some ErrRemoteNotFound)
          | Some rc => mret (Some {| r_s := Storer r; r_c := rc |}, None)
          end
      end
  end.

(** [Repository.CreateRemote]: validates, reads the configuration,
    refuses an existing name, adds the entry and writes the
    configuration back. *)
Definition Repository_CreateRemote (r : option Repository) (rc : RemoteConfig)
  : M (option Remote * option error) :=
  match r with
  | None => panic
  | Some r =>
      _ ← emit (EvCreateRemote (Storer r) rc);
      env ← ask;
      w ← get;
      match RemoteConfig_Validate rc with
      | Some e => mret (None, Some e)
      | None =>
          match config_read_err env (Storer r) with
          | Some msg => mret (None, Some (ErrOther msg))
          | None =>
              let st := storage_at w (Storer r) in
              match Remotes st !! Name rc with
              | Some _ => mret (None, Some ErrRemoteExists)
              | None =>
                  match config_write_err env (Storer r) with
                  | Some msg => mret (None, Some (ErrOther msg))
                  | None =>
                      _ ← set_disk
                            (<[Storer r := {| Remotes := <[Name rc := rc]> (Remotes st);
                                              References := References st |}]> (disk w));
                      mret (Some {| r_s := Storer r; r_c := rc |}, None)
                  end
              end
          end
      end
  end.

(** [Remote.FetchContext]: the refspecs of the options or, without
    any, those of the remote's configuration; the first URL; then the
    reference update, whose error, if any, is returned after the
    references written before it have been stored.  An upstream without
    references answers with [ErrEmptyRemoteRepository], one that cannot
    be found with another error. *)
Definition Remote_FetchContext (rem : option Remote) (o : FetchOptions)
  : M (option error) :=
  match rem with
  | None => panic
  | Some rem =>
      let specs := match fo_RefSpecs o with
                   | [] => Fetch (r_c rem)
                   | l => l
                   end in
      match URLs (r_c rem) with
      | [] => panic
      | url :: _ =>
          _ ← emit (EvFetch (r_s rem) (URLs (r_c rem)) specs);
          env ← ask;
          w ← get;
          match transport_err env url (fo_Auth o) with
          | Some msg => mret (Some (ErrOther msg))
          | None =>
              match upstream w !! url with
              | None => mret (Some (ErrOther "repository not found"))
              | Some rrefs =>
                  if decide (rrefs = ∅) then mret (Some ErrEmptyRemoteRepository)
                  else
                    let st := storage_at w (r_s rem) in
                    let upd := fetch_update env (r_s rem) (r_c rem) o rrefs
                                 (References st) in
                    _ ← set_disk (<[r_s rem := {| Remotes := Remotes st;
                                                   References := upd.2 |}]> (disk w));
                    mret (upd.1)
              end
          end
      end
  end.

(** [Repository.FetchContext]: looks the named remote up and fetches
    from it. *)
Definition Repository_FetchContext (r : option Repository) (o : FetchOptions)
  : M (option error) :=
  let name := if String.eqb (fo_RemoteName o) "" then DefaultRemoteName
              else fo_RemoteName o in
  '(remote, err) ← Repository_Remote r name;
  match err with
  | Some e => mret (Some e)
  | None => Remote_FetchContext remote o
  end.

(** [Remote.PushContext]: the name in the options (by default
    [origin]) must be the remote's; the references go to the remote's
    URL as it stands in memory.  The error of a refused reference is
    returned after the other side has taken the references it
    accepted. *)
Definition Remote_PushContext (rem : option Remote) (o : PushOptions)
  : M (option error) :=
  match rem with
  | None => panic
  | Some rem =>
      let name := if String.eqb (po_RemoteName o) "" then DefaultRemoteName
                  else po_RemoteName o in
      let specs := match po_RefSpecs o with
                   | [] => ["refs/heads/*:refs/heads/*"]
                   | l => l
                   end in
      if negb (String.eqb name (Name (r_c rem)))
      then mret (Some (ErrOther "remote names don't match"))
      else
        match URLs (r_c rem) with
        | [] => panic
        | url :: _ =>
            _ ← emit (EvPush (r_s rem) (URLs (r_c rem)) specs);
            env ← ask;
            w ← get;
            match transport_err env url (po_Auth o) with
            | Some msg => mret (Some (ErrOther msg))
            | None =>
                match upstream w !! url with
                | None => mret (Some (ErrOther "repository not found"))
                | Some rrefs =>
                    let st := storage_at w (r_s rem) in
                    let upd := push_update env url o (References st) rrefs in
                    _ ← set_upstream (<[url := upd.2]> (upstream w));
                    mret (upd.1)
                end
            end
        end
  end.
End Git.

(** ** main.go *)

(** Lines 53-60.  [e.RepoName] dereferences the element. *)
Fixpoint getRepositoryAccess_range (l : list (option RepositoryAccess))
    (repoName : string) : result (option RepositoryAccess) :=
  match l with
  | [] => Val None
  | None :: _ => Panic
  | Some e :: l' =>
      if String.eqb (RepoName e) repoName then Val (Some e)
      else getRepositoryAccess_range l' repoName
  end.

Definition getRepositoryAccess (rsc : RepositoriesSyncConfiguration)
    (repoName : string) : M (option RepositoryAccess) := fun _ w =>
  (getRepositoryAccess_range (Repositories rsc) repoName, w).

(** Field access through a pointer. *)
Definition deref {A} (p : option A) : M A :=
  match p with
  | Some a => mret a
  | None => panic
  end.

(** Lines 86-92: the path, before the directory is made.  [hasher.Write]
    never returns an error. *)
Definition sourceClonePath_of (sourceRepoUrl tmpPath : string) : string :=
  let sourceSha256sum :=
    Hex.EncodeToString (Sha256.sum (Sha256.bytes_of_string sourceRepoUrl)) in
  Filepath.Join [tmpPath; sourceSha256sum].

(** Lines 85-99. *)
Definition repositoryShadowCreateDir (sourceRepoUrl tmpPath : string)
  : M (string * option error) :=
  let sourceClonePath := sourceClonePath_of sourceRepoUrl tmpPath in
  err ← os_MkdirAll sourceClonePath 644;
  match err with
  | Some e => mret ("", Some e)
  | None => mret (sourceClonePath, None)
  end.

(** Lines 101-112. *)
Definition repositorySshKeyRead (sourceRepoPemFileName sourceRepoPemFilePassword : string)
    (sourceRepoSkipHostKeyValidation : bool) : M (option PublicKeys * option error) :=
  '(sourceRepoPublicKey, err) ← ssh_NewPublicKeysFromFile "git" sourceRepoPemFileName
                                  sourceRepoPemFilePassword;
  match err with
  | Some e => mret (None, Some e)
  | None =>
      if sourceRepoSkipHostKeyValidation then
        k ← deref sourceRepoPublicKey;
        mret (Some {| User := User k; PemFile := PemFile k; Password := Password k;
                      InsecureIgnoreHostKey := true |}, None)
      else mret (sourceRepoPublicKey, None)
  end.

(** Lines 114-123. *)
Definition repositoryShadowCheckInit (sourceClonePath : string)
  : M (option Repository * option error) :=
  '(r, err) ← Git.PlainOpen sourceClonePath;
  match err with
  | Some e =>
      if decide (e = ErrRepositoryNotExists) then mret (None, None)
      else mret (None, Some e)
  | None => mret (r, None)
  end.

(** Lines 142-145, 159-163 and 180-186: the options of the three
    transport calls.  [Progress] only prints. *)
Definition initOptions (auth : option PublicKeys) : FetchOptions :=
  {| fo_RemoteName := ""; fo_RefSpecs := []; fo_Auth := auth |}.

Definition updateOptions (auth : option PublicKeys) : FetchOptions :=
  {| fo_RemoteName := DefaultRemoteName; fo_RefSpecs := []; fo_Auth := auth |}.

Definition pushOptions (auth : option PublicKeys) : PushOptions :=
  {| po_RemoteName := ""; po_RefSpecs := [mirrorRefSpec]; po_Auth := auth |}.

(** Lines 176-178: [rm.Config().URLs = []string{url}] on the [Remote]
    value [rm]. *)
Definition rewired (rm : Remote) (url : string) : Remote :=
  {| r_s := r_s rm;
     r_c := {| Name := Name (r_c rm); URLs := [url]; Fetch := Fetch (r_c rm) |} |}.

(** Lines 131-137: the remote that the initialization creates. *)
Definition sourceRemote (sourceRepoUrl : string) : RemoteConfig :=
  {| Name := DefaultRemoteName; URLs := [sourceRepoUrl]; Fetch := [mirrorRefSpec] |}.

(** Lines 125-151. *)
Definition repositoryShadowInit (sourceClonePath sourceRepoUrl : string)
    (sourceRepoPublicKey : option PublicKeys) : M (option Repository * option error) :=
  '(r, err) ← Git.PlainInit sourceClonePath true;
  match err with
  | Some e => mret (None, Some e)
  | None =>
      '(remoteSource, err) ← Git.Repository_CreateRemote r (sourceRemote sourceRepoUrl);
      match err with
      | Some e => mret (None, Some e)
      | None =>
          err ← Git.Remote_FetchContext remoteSource (initOptions sourceRepoPublicKey);
          match err with
          | Some e =>
              if decide (e = NoErrAlreadyUpToDate) then mret (r, None)
              else mret (None, Some e)
          | None => mret (r, None)
          end
      end
  end.

(** Lines 153-169.  The parameter [r] is overwritten by the result of
    [PlainOpen] before it is read. *)
Definition repositoryShadowUpdate (r : option Repository) (sourceClonePath : string)
    (sourceRepoPublicKey : option PublicKeys) : M (option Repository * option error) :=
  '(r, err) ← Git.PlainOpen sourceClonePath;
  match err with
  | Some e => mret (None, Some e)
  | None =>
      err ← Git.Repository_FetchContext r (updateOptions sourceRepoPublicKey);
      match err with
      | Some e =>
          if decide (e = NoErrAlreadyUpToDate) then mret (r, None)
          else mret (None, Some e)
      | None => mret (r, None)
      end
  end.

(** Lines 171-192.  [ErrRemoteNotFound] passes the first check, the
    remote is then [nil], and [remoteDestination.Config()] dereferences
    it.  The assignment to [URLs] changes the [Remote] value only. *)
Definition repositoryShadowPushToNewOrigin (r : option Repository)
    (destinationRepoUrl : string) (destinationRepoPublicKey : option PublicKeys)
  : M (option error) :=
  '(remoteDestination, err) ← Git.Repository_Remote r DefaultRemoteName;
  match err with
  | Some e =>
      if decide (e = ErrRemoteNotFound) then mret None else mret (Some e)
  | None => mret None
  end ≫= fun ret =>
  match ret with
  | Some e => mret (Some e)
  | None =>
      rd ← deref remoteDestination;
      let remoteDestination := Some (rewired rd destinationRepoUrl) in
      err ← Git.Remote_PushContext remoteDestination (pushOptions destinationRepoPublicKey);
      match err with
      | Some e =>
          if decide (e = NoErrAlreadyUpToDate) then mret None
          else mret (Some e)
      | None => mret None
      end
  end.

(** Lines 194-238.  The [err] that line 218 or 220 assigns is read by
    no one: the [:=] of line 223 assigns it again. *)
Definition doRepositoriesSync (rsc : RepositoriesSyncConfiguration)
    (syncOption : option RepositorySyncOption) : M (option error) :=
  so ← deref syncOption;
  syncOptionSource ← getRepositoryAccess rsc (SourceName so);
  syncOptionDestination ← getRepositoryAccess rsc (DestinationName so);
  src ← deref syncOptionSource;
  '(sourceClonePath, err) ← repositoryShadowCreateDir (RepoUrl src)
                              (ShadowsLocationBasePath rsc);
  match err with
  | Some e => mret (Some e)
  | None =>
      '(sourceRepoPublicKeys, err) ← repositorySshKeyRead (RepoPemFileName src)
          (RepoPemFilePassword src) (RepoSkipHostKeyValidation src);
      match err with
      | Some e => mret (Some e)
      | None =>
          '(r, err) ← repositoryShadowCheckInit sourceClonePath;
          match err with
          | Some e => mret (Some e)
          | None =>
              '(r, err) ←
                 match r with
                 | None => repositoryShadowInit sourceClonePath (RepoUrl src)
                             sourceRepoPublicKeys
                 | Some _ => repositoryShadowUpdate r sourceClonePath sourceRepoPublicKeys
                 end;
              dst ← deref syncOptionDestination;
              '(destinationRepoPublicKeys, err) ← repositorySshKeyRead (RepoPemFileName dst)
                  (RepoPemFilePassword dst) (RepoSkipHostKeyValidation dst);
              match err with
              | Some e => mret (Some e)
              | None =>
                  err ← repositoryShadowPushToNewOrigin r (RepoUrl dst)
                          destinationRepoPublicKeys;
                  match err with
                  | Some e => mret (Some e)
                  | None => mret None
                  end
              end
          end
      end
  end.

(** Lines 26-31: the loop of [main]; [Some e] is [log.Fatal(e)]. *)
Fixpoint main_range (rsc : RepositoriesSyncConfiguration)
    (l : list (option RepositorySyncOption)) : M (option error) :=
  match l with
  | [] => mret None
  | e :: l' =>
      err ← doRepositoriesSync rsc e;
      match err with
      | Some e => mret (Some e)
      | None => main_range rsc l'
      end
  end.

(** Successive runs of the process over the same filesystem, each in
    its own environment and with its own configuration; a run that
    panics or exits with an error does not prevent the next one. *)
Fixpoint runs (l : list (Env * RepositoriesSyncConfiguration)) (w : World) : World :=
  match l with
  | [] => w
  | (env, rsc) :: l' => runs l' (main_range rsc (SyncOptions rsc) env w).2
  end.

(** ** Parts of [doRepositoriesSync], named for the statements *)

(** Lines 217-221: the branch on the result of the check. *)
Definition initOrUpdate (r : option Repository) (sourceClonePath sourceRepoUrl : string)
    (sourceRepoPublicKeys : option PublicKeys) : M (option Repository * option error) :=
  match r with
  | None => repositoryShadowInit sourceClonePath sourceRepoUrl sourceRepoPublicKeys
  | Some _ => repositoryShadowUpdate r sourceClonePath sourceRepoPublicKeys
  end.

(** Lines 212-221 as one operation, the initialize-or-update of the
    shadow: the check, then the branch. *)
Definition ensureUpToDate (sourceClonePath sourceRepoUrl : string)
    (sourceRepoPublicKeys : option PublicKeys) : M (option Repository * option error) :=
  '(r, err) ← repositoryShadowCheckInit sourceClonePath;
  match err with
  | Some e => mret (None, Some e)
  | None => initOrUpdate r sourceClonePath sourceRepoUrl sourceRepoPublicKeys
  end.

(** Lines 223-237: the destination key, then the push. *)
Definition pushStage (r : option Repository)
    (syncOptionDestination : option RepositoryAccess) : M (option error) :=
  dst ← deref syncOptionDestination;
  '(destinationRepoPublicKeys, err) ← repositorySshKeyRead (RepoPemFileName dst)
      (RepoPemFilePassword dst) (RepoSkipHostKeyValidation dst);
  match err with
  | Some e => mret (Some e)
  | None =>
      err ← repositoryShadowPushToNewOrigin r (RepoUrl dst) destinationRepoPublicKeys;
      match err with
      | Some e => mret (Some e)
      | None => mret None
      end
  end.

(** The shadow directory of a descriptor and the credential that
    [repositorySshKeyRead] resolves for it when the key file is read. *)
Definition shadow_of (rsc : RepositoriesSyncConfiguration) (ra : RepositoryAccess) : string :=
  sourceClonePath_of (RepoUrl ra) (ShadowsLocationBasePath rsc).

Definition keys_of (ra : RepositoryAccess) : option PublicKeys :=
  Some {| User := "git"; PemFile := RepoPemFileName ra;
          Password := RepoPemFilePassword ra;
          InsecureIgnoreHostKey := RepoSkipHostKeyValidation ra |}.

Definition key_event (ra : RepositoryAccess) : event :=
  EvKeyRead "git" (RepoPemFileName ra) (RepoPemFilePassword ra).

Definition key_failure (env : Env) (ra : RepositoryAccess) : option string :=
  key_err env "git" (RepoPemFileName ra) (RepoPemFilePassword ra).

(** What [repositoryShadowCheckInit] hands to the branch of line 217
    when the open did not fail otherwise. *)
Definition checked (w : World) (path : string) : option Repository :=
  match disk w !! path with
  | None => None
  | Some _ => Some {| Storer := path |}
  end.

(** An environment in which no call on the shadow directory [path] and
    no connection fails. *)
Definition no_failures (env : Env) (path : string) : Prop :=
  open_err env path = None
  /\ init_err env path = None
  /\ config_read_err env path = None
  /\ config_write_err env path = None
  /\ forall url keys, transport_err env url keys = None.

(** The shadow at [path] is absent and the source at [url] has
    references, or it is present with the mirroring remote [origin]
    and the repository at the stored URL has references. *)
Definition shadow_ready (w : World) (path url : string) : Prop :=
  match disk w !! path with
  | None => exists rrefs, upstream w !! url = Some rrefs /\ rrefs <> ∅
  | Some st =>
      exists rc u us rrefs,
        Remotes st !! DefaultRemoteName = Some rc
        /\ Fetch rc = [mirrorRefSpec]
        /\ URLs rc = u :: us
        /\ upstream w !! u = Some rrefs /\ rrefs <> ∅
  end.

(** No reference that a fetch from the stored URL would write into the
    shadow at [path] has a name that collides, as a directory with a
    file, with the name of a reference that the shadow stores. *)
Definition unobstructed (w : World) (path : string) : Prop :=
  forall st rc u us rrefs n m,
    disk w !! path = Some st ->
    Remotes st !! DefaultRemoteName = Some rc ->
    URLs rc = u :: us ->
    upstream w !! u = Some rrefs ->
    is_Some (Git.mirror_refs rrefs !! n) ->
    is_Some (References st !! m) ->
    Git.dir_of n m = false /\ Git.dir_of m n = false.

(** ** A program logic for invariants

    [hoare I m Q]: run from a world that satisfies [I], the computation
    [m] ends (with a value or a panic) in a world that satisfies [I],
    and a value it returns satisfies [Q]. *)
Definition hoare {A} (I : World -> Prop) (m : M A) (Q : A -> Prop) : Prop :=
  forall env w, I w -> I (m env w).2 /\ forall a, (m env w).1 = Val a -> Q a.

(** ** The invariant of an existing shadow

    [kept p R0 t0 w]: a repository is stored at [p] with the remotes
    [R0], and every fetch into [p] recorded after the trace [t0] ran on
    the URL list and the refspecs that [R0] holds for [origin]. *)
Definition fetch_from (p : string) (R0 : gmap string RemoteConfig) (ev : event) : Prop :=
  match ev with
  | EvFetch p' urls specs =>
      p' = p -> exists rc, R0 !! DefaultRemoteName = Some rc
                           /\ urls = URLs rc /\ specs = Fetch rc
  | _ => True
  end.

Definition kept (p : string) (R0 : gmap string RemoteConfig) (t0 : list event)
    (w : World) : Prop :=
  (exists st, disk w !! p = Some st /\ Remotes st = R0)
  /\ exists t, trace w = (t0 ++ t)%list /\ Forall (fetch_from p R0) t.

(** ** Concrete configurations, environments and worlds *)
Module Fixtures.
(** An environment in which nothing fails. *)
Definition env_ok : Env := {|
  mkdir_err := fun _ _ => None;
  key_err := fun _ _ _ => None;
  open_err := fun _ => None;
  init_err := fun _ => None;
  config_read_err := fun _ => None;
  config_write_err := fun _ => None;
  transport_err := fun _ _ => None;
  foreign_fetch := fun _ _ l => (None, l);
  foreign_push := fun _ _ l => (None, l);
  fetch_reached := fun _ _ => true;
  push_refused := fun _ _ => None |}.

(** The same, except that no connection can be made. *)
Definition env_offline : Env := {|
  mkdir_err := fun _ _ => None;
  key_err := fun _ _ _ => None;
  open_err := fun _ => None;
  init_err := fun _ => None;
  config_read_err := fun _ => None;
  config_write_err := fun _ => None;
  transport_err := fun _ _ => Some "dial tcp: connection refused";
  foreign_fetch := fun _ _ l => (None, l);
  foreign_push := fun _ _ l => (None, l);
  fetch_reached := fun _ _ => true;
  push_refused := fun _ _ => None |}.

(** The same as [env_ok], except that the shadow directory cannot be
    opened for a reason other than its absence. *)
Definition env_locked : Env := {|
  mkdir_err := fun _ _ => None;
  key_err := fun _ _ _ => None;
  open_err := fun _ => Some "permission denied";
  init_err := fun _ => None;
  config_read_err := fun _ => None;
  config_write_err := fun _ => None;
  transport_err := fun _ _ => None;
  foreign_fetch := fun _ _ l => (None, l);
  foreign_push := fun _ _ l => (None, l);
  fetch_reached := fun _ _ => true;
  push_refused := fun _ _ => None |}.

Definition alpha : RepositoryAccess := {|
  RepoName := "alpha"; RepoUrl := "ssh://git@src.example/a.git";
  RepoPemFileName := "alpha.pem"; RepoPemFilePassword := "";
  RepoSkipHostKeyValidation := false |}.

Definition beta : RepositoryAccess := {|
  RepoName := "beta"; RepoUrl := "ssh://git@dst.example/b.git";
  RepoPemFileName := "beta.pem"; RepoPemFilePassword := "secret";
  RepoSkipHostKeyValidation := true |}.

Definition pair : RepositorySyncOption :=
  {| SourceName := "alpha"; DestinationName := "beta" |}.

Definition rsc : RepositoriesSyncConfiguration := {|
  ShadowsLocationBasePath := "/var/shadows";
  Repositories := [Some alpha; Some beta];
  SyncOptions := [Some pair] |}.

(** No repository is configured at all. *)
Definition rsc_empty : RepositoriesSyncConfiguration := {|
  ShadowsLocationBasePath := "/var/shadows";
  Repositories := [];
  SyncOptions := [Some pair] |}.

(** Only the source of [pair] is configured. *)
Definition rsc_no_dst : RepositoriesSyncConfiguration := {|
  ShadowsLocationBasePath := "/var/shadows";
  Repositories := [Some alpha];
  SyncOptions := [Some pair] |}.

Definition shadow : string :=
  "/var/shadows/1569c549c6651035d1867285c187fe51efb6e4725f611d939d26e8e1b36ad907".

(** A fresh machine: no shadow yet, a source with two branches, an
    empty destination. *)
Definition w0 : World := {|
  disk := ∅;
  upstream := {[ RepoUrl alpha := {[ "HEAD" := "1f3a";
                                     "refs/heads/main" := "1f3a";
                                     "refs/heads/feature-x" := "77c0" ]};
                 RepoUrl beta := ∅ ]};
  trace := [] |}.

Definition keys_alpha : option PublicKeys :=
  Some {| User := "git"; PemFile := "alpha.pem"; Password := "";
          InsecureIgnoreHostKey := false |}.
End Fixtures.

(** ** Further scenes *)

(** The shadow at [path], if there is one, stores what the
    initialization for the source [url] stores: the one remote
    [origin], mirroring [url]. *)
Definition own_shadow (w : World) (path url : string) : Prop :=
  forall st, disk w !! path = Some st ->
             Remotes st = {[DefaultRemoteName := sourceRemote url]}.


(** An environment in which nothing fails, but every destination
    refuses the update of its branch [main]. *)
Definition env_guarded : Env := {|
  mkdir_err := fun _ _ => None;
  key_err := fun _ _ _ => None;
  open_err := fun _ => None;
  init_err := fun _ => None;
  config_read_err := fun _ => None;
  config_write_err := fun _ => None;
  transport_err := fun _ _ => None;
  foreign_fetch := fun _ _ l => (None, l);
  foreign_push := fun _ _ l => (None, l);
  fetch_reached := fun _ _ => true;
  push_refused := fun _ n =>
    if String.eqb n "refs/heads/main" then Some "non-fast-forward" else None |}.

(** A fresh machine whose destination has a branch [main] of its own. *)
Definition w_diverged : World := {|
  disk := ∅;
  upstream := <[RepoUrl Fixtures.beta := {[ "refs/heads/main" := "c4d1" ]}]>
                (upstream Fixtures.w0);
  trace := [] |}.

(** An environment in which nothing fails but the reading of the key
    file [beta.pem]. *)
Definition env_no_beta_key : Env := {|
  mkdir_err := fun _ _ => None;
  key_err := fun _ pem _ =>
    if String.eqb pem "beta.pem"
    then Some "open beta.pem: no such file or directory" else None;
  open_err := fun _ => None;
  init_err := fun _ => None;
  config_read_err := fun _ => None;
  config_write_err := fun _ => None;
  transport_err := fun _ _ => None;
  foreign_fetch := fun _ _ l => (None, l);
  foreign_push := fun _ _ l => (None, l);
  fetch_reached := fun _ _ => true;
  push_refused := fun _ _ => None |}.

(** * Properties *)

(** ** The library models on known values *)
Example K_ends : nth_error Sha256._K 0 = Some 0x428a2f98%Z
  /\ nth_error Sha256._K 63 = Some 0xc67178f2%Z /\ length Sha256._K = 64.
Proof. repeat split. Qed.

Example init_ends : Sha256.h0 Sha256.init = 0x6a09e667%Z
  /\ Sha256.h7 Sha256.init = 0x5be0cd19%Z.
Proof. split; reflexivity. Qed.

Example sha256_abc :
  Hex.EncodeToString (Sha256.sum (Sha256.bytes_of_string "abc"))
  = "ba7816bf8f01cfea414140de5dae2223b00361a396177a9cb410ff61f20015ad".
Proof. vm_compute. reflexivity. Qed.

Example sha256_empty :
  Hex.EncodeToString (Sha256.sum (Sha256.bytes_of_string ""))
  = "e3b0c44298fc1c149afbf4c8996fb92427ae41e4649b934ca495991b7852b855".
Proof. vm_compute. reflexivity. Qed.

Example sha256_two_blocks :
  Hex.EncodeToString (Sha256.sum (Sha256.bytes_of_string
    "abcdbcdecdefdefgefghfghighijhijkijkljklmklmnlmnomnopnopq"))
  = "248d6a61d20638b8e5c026930c3e6039a33ce45964ff2167f6ecedd419db06c1".
Proof. vm_compute. reflexivity. Qed.

Example join_plain : Filepath.Join ["/var/shadows"; "ab12"] = "/var/shadows/ab12".
Proof. reflexivity. Qed.

Example join_cleans : Filepath.Join ["/var//x/../shadows/"; "ab12"] = "/var/shadows/ab12".
Proof. reflexivity. Qed.

Example join_empty_base : Filepath.Join [""; "ab12"] = "ab12".
Proof. reflexivity. Qed.

Example join_relative : Filepath.Join ["../s/."; "ab12"] = "../s/ab12".
Proof. reflexivity. Qed.

(** ** Unfolding the monad *)
Ltac munfold :=
  unfold mbind, M_bind, mret, M_ret, ask, get, emit, set_disk, set_upstream,
    panic, deref, other in *.

(** ** The shadow path *)
Lemma be_bytes_length n x : length (Sha256.be_bytes n x) = n.
Proof.
  unfold Sha256.be_bytes.
  rewrite length_map, length_rev, length_seq. reflexivity.
Qed.

Lemma sum_length msg : length (Sha256.sum msg) = 32.
Proof.
  unfold Sha256.sum, Sha256.words. cbn [flat_map].
  rewrite !length_app, !be_bytes_length. reflexivity.
Qed.

Lemma EncodeToString_length src :
  String.length (Hex.EncodeToString src) = 2 * length src.
Proof. induction src as [|v src IH]; cbn [Hex.EncodeToString String.length length]; lia. Qed.

Lemma digit_hextable n :
  In (Hex.digit n) (list_ascii_of_string Hex.hextable).
Proof.
  unfold Hex.digit.
  destruct (String.get (Z.to_nat n) Hex.hextable) as [ch|] eqn:E; [|cbn; tauto].
  revert E. generalize (Z.to_nat n) as k. intros k.
  do 16 (destruct k as [|k]; [cbn; intros [= <-]; tauto|]).
  cbn. discriminate.
Qed.

Lemma EncodeToString_lowercase src ch :
  In ch (list_ascii_of_string (Hex.EncodeToString src)) ->
  In ch (list_ascii_of_string Hex.hextable).
Proof.
  induction src as [|v src IH]; cbn [Hex.EncodeToString list_ascii_of_string In].
  - tauto.
  - intros [<-|[<-|H]]; auto using digit_hextable.
Qed.

Lemma repositoryShadowCreateDir_run u b env w :
  repositoryShadowCreateDir u b env w =
  (match mkdir_err env (sourceClonePath_of u b) 644 with
   | None => Val (sourceClonePath_of u b, None)
   | Some msg => Val ("", Some (ErrOther msg))
   end,
   log (EvMkdirAll (sourceClonePath_of u b) 644) w).
Proof.
  unfold repositoryShadowCreateDir, os_MkdirAll. munfold.
  destruct (mkdir_err env (sourceClonePath_of u b) 644); reflexivity.
Qed.

(** C7.  The shadow path is the base path joined with the lowercase
    hexadecimal SHA-256 digest of the URL string: whenever the directory
    can be made that path is returned, whatever the environment and the
    world; the digest has 64 characters, all of them lowercase
    hexadecimal digits; two calls on the same URL and base path that
    return a path return the same one. *)
Theorem shadow_path_is_sha256_hex (u b : string) :
  let digest := Hex.EncodeToString (Sha256.sum (Sha256.bytes_of_string u)) in
  (forall env w,
     (repositoryShadowCreateDir u b env w).1 =
     match mkdir_err env (Filepath.Join [b; digest]) 644 with
     | None => Val (Filepath.Join [b; digest], None)
     | Some msg => Val ("", Some (ErrOther msg))
     end)
  /\ String.length digest = 64
  /\ (forall ch, In ch (list_ascii_of_string digest) ->
                 In ch (list_ascii_of_string Hex.hextable))
  /\ (forall env1 w1 env2 w2 p1 p2,
        (repositoryShadowCreateDir u b env1 w1).1 = Val (p1, None) ->
        (repositoryShadowCreateDir u b env2 w2).1 = Val (p2, None) ->
        p1 = p2).
Proof.
  intros digest. split; [|split; [|split]].
  - intros env w. rewrite repositoryShadowCreateDir_run. reflexivity.
  - subst digest. rewrite EncodeToString_length, sum_length. reflexivity.
  - apply EncodeToString_lowercase.
  - intros env1 w1 env2 w2 p1 p2.
    rewrite !repositoryShadowCreateDir_run. cbn [fst].
    destruct (mkdir_err env1 _ _), (mkdir_err env2 _ _); congruence.
Qed.

Lemma shadow_path_is_sha256_hex_witness :
  (repositoryShadowCreateDir (RepoUrl Fixtures.alpha) "/var/shadows"
     Fixtures.env_ok Fixtures.w0).1 = Val (Fixtures.shadow, None)
  /\ (repositoryShadowCreateDir (RepoUrl Fixtures.alpha) "/var/shadows"
        Fixtures.env_locked Fixtures.w0).1 = Val (Fixtures.shadow, None)
  /\ Fixtures.shadow = Fixtures.shadow.
Proof.
  assert (H1 : (repositoryShadowCreateDir (RepoUrl Fixtures.alpha) "/var/shadows"
                  Fixtures.env_ok Fixtures.w0).1 = Val (Fixtures.shadow, None))
    by (vm_compute; reflexivity).
  assert (H2 : (repositoryShadowCreateDir (RepoUrl Fixtures.alpha) "/var/shadows"
                  Fixtures.env_locked Fixtures.w0).1 = Val (Fixtures.shadow, None))
    by (vm_compute; reflexivity).
  split; [exact H1|]. split; [exact H2|].
  exact (proj2 (proj2 (proj2
    (shadow_path_is_sha256_hex (RepoUrl Fixtures.alpha) "/var/shadows")))
    Fixtures.env_ok Fixtures.w0 Fixtures.env_locked Fixtures.w0 _ _ H1 H2).
Defined.

(** ** The directory mode *)

(** C6.  The directory is made with the decimal number 644 as its mode:
    that is not the octal 0644, and none of the three execute bits
    (octal 0111) is set in it. *)
Theorem shadow_dir_mode_is_decimal_644 (u b : string) (env : Env) (w : World) :
  trace (repositoryShadowCreateDir u b env w).2
    = (trace w ++ [EvMkdirAll (sourceClonePath_of u b) 644])%list
  /\ (644 <> octal [0; 6; 4; 4])%Z
  /\ (Z.land 644 (octal [0; 1; 1; 1]) = 0)%Z
  /\ (Z.land 644 (octal [0; 7; 7; 7]) = octal [0; 2; 0; 4])%Z.
Proof.
  rewrite repositoryShadowCreateDir_run. cbn [snd trace].
  split; [reflexivity|]. split; [|split]; vm_compute; congruence.
Qed.

(** ** The rules of the program logic *)
Section Hoare.
Context (I : World -> Prop).

Lemma hoare_ret {A} (a : A) (Q : A -> Prop) : Q a -> hoare I (mret a) Q.
Proof. intros HQ env w HI. split; [done|]. by intros a' [= <-]. Qed.

Lemma hoare_panic {A} (Q : A -> Prop) : hoare I (@panic A) Q.
Proof. intros env w HI. split; [done|]. intros a [=]. Qed.

Lemma hoare_bind {A B} (m : M A) (f : A -> M B) (Q : A -> Prop) (Q' : B -> Prop) :
  hoare I m Q -> (forall a, Q a -> hoare I (f a) Q') -> hoare I (m ≫= f) Q'.
Proof.
  intros Hm Hf env w HI. unfold mbind, M_bind.
  destruct (Hm env w HI) as [HI1 HQ].
  destruct (m env w) as [[a|] w1]; cbn in *.
  - apply Hf; auto.
  - split; [done|]. intros b [=].
Qed.

Lemma hoare_deref {A} (x : option A) (Q : A -> Prop) :
  (forall a, x = Some a -> Q a) -> hoare I (deref x) Q.
Proof. destruct x; intros H; [apply hoare_ret; auto|apply hoare_panic]. Qed.

Lemma hoare_ask : hoare I ask (fun _ => True).
Proof. intros env w HI. split; [done|]. done. Qed.

Lemma hoare_get : hoare I get I.
Proof. intros env w HI. split; [done|]. by intros a [= <-]. Qed.

Lemma hoare_lookup rsc name :
  hoare I (getRepositoryAccess rsc name) (fun _ => True).
Proof. intros env w HI. split; [done|]. done. Qed.
End Hoare.

(** ** What a sync leaves alone *)
Section Kept.
Context (p : string) (R0 : gmap string RemoteConfig) (t0 : list event).
Local Abbreviation I := (kept p R0 t0).

Lemma hoare_emit e : fetch_from p R0 e -> hoare I (emit e) (fun _ => True).
Proof.
  intros He env w [Hd (t & Ht & Hf)]. split; [|done].
  split; [exact Hd|]. exists (t ++ [e])%list. cbn.
  split; [by rewrite Ht, app_assoc|].
  apply Forall_app. split; [done|]. by constructor.
Qed.

Lemma hoare_set_disk d :
  (exists st, d !! p = Some st /\ Remotes st = R0) ->
  hoare I (set_disk d) (fun _ => True).
Proof. intros Hd env w [_ Ht]. split; [|done]. split; [exact Hd|exact Ht]. Qed.

Lemma hoare_set_upstream u : hoare I (set_upstream u) (fun _ => True).
Proof. intros env w [Hd Ht]. split; [|done]. split; [exact Hd|exact Ht]. Qed.

Lemma kept_storage_at w : I w -> Remotes (Git.storage_at w p) = R0.
Proof. intros [(st & Hst & HR) _]. unfold Git.storage_at. by rewrite Hst. Qed.

Lemma kept_insert_ne w q st :
  I w -> q <> p -> exists st', <[q := st]> (disk w) !! p = Some st' /\ Remotes st' = R0.
Proof. intros [Hd _] Hq. by rewrite lookup_insert_ne. Qed.

Lemma kept_insert_same w st :
  I w -> Remotes st = R0 ->
  exists st', <[p := st]> (disk w) !! p = Some st' /\ Remotes st' = R0.
Proof. intros _ HR. rewrite lookup_insert_eq. eauto. Qed.

Lemma hoare_MkdirAll path perm : hoare I (os_MkdirAll path perm) (fun _ => True).
Proof.
  unfold os_MkdirAll.
  eapply hoare_bind; [by apply hoare_emit|intros _ _].
  eapply hoare_bind; [apply hoare_ask|intros env _].
  by apply hoare_ret.
Qed.

Lemma hoare_CreateDir u b : hoare I (repositoryShadowCreateDir u b) (fun _ => True).
Proof.
  unfold repositoryShadowCreateDir.
  eapply hoare_bind; [apply hoare_MkdirAll|intros err _].
  destruct err; by apply hoare_ret.
Qed.

Lemma hoare_KeyRead f pw sk : hoare I (repositorySshKeyRead f pw sk) (fun _ => True).
Proof.
  unfold repositorySshKeyRead, ssh_NewPublicKeysFromFile.
  eapply hoare_bind with (Q := fun _ => True).
  - eapply hoare_bind; [by apply hoare_emit|intros _ _].
    eapply hoare_bind; [apply hoare_ask|intros env _].
    destruct (key_err env "git" f pw); by apply hoare_ret.
  - intros [k err] _. destruct err; [by apply hoare_ret|].
    destruct sk; [|by apply hoare_ret].
    eapply hoare_bind with (Q := fun _ => True); [by apply hoare_deref|intros k' _].
    by apply hoare_ret.
Qed.

(** An open that succeeds returns a handle on the directory asked for. *)
Lemma hoare_PlainOpen path :
  hoare I (Git.PlainOpen path)
    (fun res => res.2 = None -> res.1 = Some {| Storer := path |}).
Proof.
  unfold Git.PlainOpen.
  eapply hoare_bind; [by apply hoare_emit|intros _ _].
  eapply hoare_bind; [apply hoare_ask|intros env _].
  eapply hoare_bind; [apply hoare_get|intros w Hw].
  destruct (open_err env path); [by apply hoare_ret|].
  destruct (disk w !! path); by apply hoare_ret.
Qed.

(** An initialization that succeeds was not on [p]. *)
Lemma hoare_PlainInit path bare :
  hoare I (Git.PlainInit path bare)
    (fun res => res.2 = None -> path <> p /\ res.1 = Some {| Storer := path |}).
Proof.
  unfold Git.PlainInit.
  eapply hoare_bind; [by apply hoare_emit|intros _ _].
  eapply hoare_bind; [apply hoare_ask|intros env _].
  eapply hoare_bind; [apply hoare_get|intros w Hw].
  destruct (init_err env path); [by apply hoare_ret|].
  destruct (disk w !! path) eqn:Hd; [by apply hoare_ret|].
  assert (path <> p) as Hne.
  { intros ->. destruct Hw as [(st & Hst & _) _]. congruence. }
  eapply hoare_bind; [apply hoare_set_disk; by eapply kept_insert_ne|intros _ _].
  by apply hoare_ret.
Qed.

(** A remote that is found carries the entry stored under its name. *)
Lemma hoare_Remote r name :
  hoare I (Git.Repository_Remote r name)
    (fun res => res.2 = None ->
       exists rr rm, r = Some rr /\ res.1 = Some rm /\ r_s rm = Storer rr
                     /\ (Storer rr = p -> R0 !! name = Some (r_c rm))).
Proof.
  unfold Git.Repository_Remote. destruct r as [rr|]; [|apply hoare_panic].
  eapply hoare_bind; [apply hoare_ask|intros env _].
  eapply hoare_bind; [apply hoare_get|intros w Hw].
  destruct (config_read_err env (Storer rr)); [by apply hoare_ret|].
  destruct (Remotes (Git.storage_at w (Storer rr)) !! name) as [rc|] eqn:Hrc;
    [|by apply hoare_ret].
  apply hoare_ret. intros _. exists rr, {| r_s := Storer rr; r_c := rc |}.
  repeat split. intros Heq. rewrite Heq in Hrc.
  by rewrite (kept_storage_at w Hw) in Hrc.
Qed.

Lemma hoare_CreateRemote r rc :
  (forall rr, r = Some rr -> Storer rr <> p) ->
  hoare I (Git.Repository_CreateRemote r rc)
    (fun res => res.2 = None -> exists rm, res.1 = Some rm /\ r_s rm <> p).
Proof.
  intros Hr. unfold Git.Repository_CreateRemote.
  destruct r as [rr|]; [|apply hoare_panic].
  specialize (Hr rr eq_refl).
  eapply hoare_bind; [by apply hoare_emit|intros _ _].
  eapply hoare_bind; [apply hoare_ask|intros env _].
  eapply hoare_bind; [apply hoare_get|intros w Hw].
  destruct (Git.RemoteConfig_Validate rc); [by apply hoare_ret|].
  destruct (config_read_err env (Storer rr)); [by apply hoare_ret|].
  destruct (Remotes (Git.storage_at w (Storer rr)) !! Name rc); [by apply hoare_ret|].
  destruct (config_write_err env (Storer rr)); [by apply hoare_ret|].
  eapply hoare_bind; [apply hoare_set_disk; by eapply kept_insert_ne|intros _ _].
  apply hoare_ret. intros _. eexists. split; [reflexivity|]. done.
Qed.

(** A fetch on a remote of [p] keeps the invariant when the remote is
    the stored [origin] and the options bring no refspecs. *)
Lemma hoare_Remote_Fetch rem o :
  (forall rm, rem = Some rm ->
     r_s rm <> p \/ (fo_RefSpecs o = [] /\ R0 !! DefaultRemoteName = Some (r_c rm))) ->
  hoare I (Git.Remote_FetchContext rem o) (fun _ => True).
Proof.
  intros Hrem. unfold Git.Remote_FetchContext.
  destruct rem as [rm|]; [|apply hoare_panic].
  specialize (Hrem rm eq_refl).
  destruct (URLs (r_c rm)) as [|url urls] eqn:Hurls; [apply hoare_panic|].
  eapply hoare_bind with (Q := fun _ => True).
  { apply hoare_emit. cbn. intros Heq.
    destruct Hrem as [?|[-> Hrc]]; [done|]. exists (r_c rm). by rewrite Hurls. }
  intros _ _.
  eapply hoare_bind; [apply hoare_ask|intros env _].
  eapply hoare_bind; [apply hoare_get|intros w Hw].
  destruct (transport_err env url (fo_Auth o)); [by apply hoare_ret|].
  destruct (upstream w !! url) as [rrefs|]; [|by apply hoare_ret].
  destruct (decide (rrefs = ∅)); [by apply hoare_ret|].
  eapply hoare_bind with (Q := fun _ => True); [|intros _ _; by apply hoare_ret].
  apply hoare_set_disk.
  destruct (decide (r_s rm = p)) as [->|Hne].
  - eapply kept_insert_same; [exact Hw|]. cbn. by apply kept_storage_at.
  - by eapply kept_insert_ne.
Qed.

Lemma hoare_Repository_Fetch r auth :
  hoare I (Git.Repository_FetchContext r
             {| fo_RemoteName := DefaultRemoteName; fo_RefSpecs := [];
                fo_Auth := auth |}) (fun _ => True).
Proof.
  unfold Git.Repository_FetchContext. cbn [fo_RemoteName].
  change (if String.eqb DefaultRemoteName "" then _ else _) with DefaultRemoteName.
  eapply hoare_bind; [apply hoare_Remote|].
  intros [rem err] Hres. cbn in Hres.
  destruct err; [by apply hoare_ret|].
  destruct (Hres eq_refl) as (rr & rm & -> & -> & Hs & Hrc).
  apply hoare_Remote_Fetch. intros ? [= <-].
  destruct (decide (r_s rm = p)) as [Heq|Hne]; [right|by left].
  split; [done|]. apply Hrc. congruence.
Qed.

Lemma hoare_Remote_Push rem o :
  hoare I (Git.Remote_PushContext rem o) (fun _ => True).
Proof.
  unfold Git.Remote_PushContext. destruct rem as [rm|]; [|apply hoare_panic].
  destruct (negb _); [by apply hoare_ret|].
  destruct (URLs (r_c rm)) as [|url urls] eqn:Hurls; [apply hoare_panic|].
  eapply hoare_bind with (Q := fun _ => True); [by apply hoare_emit|intros _ _].
  eapply hoare_bind; [apply hoare_ask|intros env _].
  eapply hoare_bind; [apply hoare_get|intros w Hw].
  destruct (transport_err env url (po_Auth o)); [by apply hoare_ret|].
  destruct (upstream w !! url) as [rrefs|]; [|by apply hoare_ret].
  eapply hoare_bind with (Q := fun _ => True); [apply hoare_set_upstream|intros _ _].
  by apply hoare_ret.
Qed.

Lemma hoare_CheckInit path :
  hoare I (repositoryShadowCheckInit path) (fun _ => True).
Proof.
  unfold repositoryShadowCheckInit.
  eapply hoare_bind; [apply hoare_PlainOpen|intros [r err] _].
  destruct err as [e|]; [|by apply hoare_ret].
  destruct (decide _); by apply hoare_ret.
Qed.

Lemma hoare_Init path url keys :
  hoare I (repositoryShadowInit path url keys) (fun _ => True).
Proof.
  unfold repositoryShadowInit.
  eapply hoare_bind; [apply hoare_PlainInit|intros [r err] Hres]. cbn in Hres.
  destruct err as [e|]; [by apply hoare_ret|].
  destruct (Hres eq_refl) as [Hne ->].
  eapply hoare_bind; [apply hoare_CreateRemote; by intros ? [= <-]|].
  intros [rem err] Hrem. cbn in Hrem.
  destruct err as [e|]; [by apply hoare_ret|].
  destruct (Hrem eq_refl) as (rm & -> & Hrm).
  eapply hoare_bind with (Q := fun _ => True).
  { apply hoare_Remote_Fetch. intros ? [= <-]. by left. }
  intros err _. destruct err as [e|]; [|by apply hoare_ret].
  destruct (decide _); by apply hoare_ret.
Qed.

Lemma hoare_Update r path keys :
  hoare I (repositoryShadowUpdate r path keys) (fun _ => True).
Proof.
  unfold repositoryShadowUpdate.
  eapply hoare_bind; [apply hoare_PlainOpen|intros [r' err] _].
  destruct err as [e|]; [by apply hoare_ret|].
  eapply hoare_bind; [apply hoare_Repository_Fetch|].
  intros err _. destruct err as [e|]; [|by apply hoare_ret].
  destruct (decide _); by apply hoare_ret.
Qed.

Lemma hoare_Push r url keys :
  hoare I (repositoryShadowPushToNewOrigin r url keys) (fun _ => True).
Proof.
  unfold repositoryShadowPushToNewOrigin.
  eapply hoare_bind; [apply hoare_Remote|intros [rem err] _].
  eapply hoare_bind with (Q := fun _ => True).
  { destruct err as [e|]; [|by apply hoare_ret].
    destruct (decide _); by apply hoare_ret. }
  intros ret _. destruct ret; [by apply hoare_ret|].
  eapply hoare_bind with (Q := fun _ => True); [by apply hoare_deref|intros rd _].
  eapply hoare_bind; [apply hoare_Remote_Push|].
  intros err' _. destruct err' as [e|]; [|by apply hoare_ret].
  destruct (decide _); by apply hoare_ret.
Qed.

Lemma hoare_initOrUpdate r path url keys :
  hoare I (initOrUpdate r path url keys) (fun _ => True).
Proof. destruct r; [apply hoare_Update|apply hoare_Init]. Qed.

Lemma hoare_pushStage r dst : hoare I (pushStage r dst) (fun _ => True).
Proof.
  unfold pushStage.
  eapply hoare_bind with (Q := fun _ => True); [by apply hoare_deref|intros d _].
  eapply hoare_bind; [apply hoare_KeyRead|intros [k err] _].
  destruct err; [by apply hoare_ret|].
  eapply hoare_bind; [apply hoare_Push|intros err _].
  destruct err; by apply hoare_ret.
Qed.

Lemma hoare_doRepositoriesSync rsc syncOption :
  hoare I (doRepositoriesSync rsc syncOption) (fun _ => True).
Proof.
  unfold doRepositoriesSync.
  eapply hoare_bind with (Q := fun _ => True); [by apply hoare_deref|intros so _].
  eapply hoare_bind; [apply hoare_lookup|intros src _].
  eapply hoare_bind; [apply hoare_lookup|intros dst _].
  eapply hoare_bind with (Q := fun _ => True); [by apply hoare_deref|intros s _].
  eapply hoare_bind; [apply hoare_CreateDir|intros [path err] _].
  destruct err; [by apply hoare_ret|].
  eapply hoare_bind; [apply hoare_KeyRead|intros [k err] _].
  destruct err; [by apply hoare_ret|].
  eapply hoare_bind; [apply hoare_CheckInit|intros [r err] _].
  destruct err; [by apply hoare_ret|].
  eapply hoare_bind; [apply hoare_initOrUpdate|intros [r' err] _].
  apply hoare_pushStage.
Qed.

Lemma hoare_main_range rsc l : hoare I (main_range rsc l) (fun _ => True).
Proof.
  induction l as [|e l IH]; cbn [main_range]; [by apply hoare_ret|].
  eapply hoare_bind; [apply hoare_doRepositoriesSync|intros err _].
  destruct err; [by apply hoare_ret|apply IH].
Qed.

Lemma kept_runs l w : I w -> I (runs l w).
Proof.
  revert w. induction l as [|[env rsc] l IH]; intros w Hw; cbn [runs]; [done|].
  apply IH. by apply hoare_main_range.
Qed.
End Kept.

(** ** The calls in closed form *)
Lemma bind_run {A B} (m : M A) (f : A -> M B) env w :
  (m ≫= f) env w =
  match m env w with
  | (Val a, w') => f a env w'
  | (Panic, w') => (Panic, w')
  end.
Proof. reflexivity. Qed.

Lemma ret_run {A} (a : A) env w : mret (M := M) a env w = (Val a, w).
Proof. reflexivity. Qed.

Lemma KeyRead_run f pw sk env w :
  repositorySshKeyRead f pw sk env w =
  (Val match key_err env "git" f pw with
       | Some msg => (None, Some (ErrOther msg))
       | None => (Some {| User := "git"; PemFile := f; Password := pw;
                          InsecureIgnoreHostKey := sk |}, None)
       end,
   log (EvKeyRead "git" f pw) w).
Proof.
  unfold repositorySshKeyRead, ssh_NewPublicKeysFromFile. munfold.
  destruct (key_err env "git" f pw); [reflexivity|]. by destruct sk.
Qed.

Lemma PlainOpen_run path env w :
  Git.PlainOpen path env w =
  (Val match open_err env path with
       | Some msg => (None, Some (ErrOther msg))
       | None =>
           match disk w !! path with
           | None => (None, Some ErrRepositoryNotExists)
           | Some _ => (Some {| Storer := path |}, None)
           end
       end,
   log (EvPlainOpen path) w).
Proof.
  unfold Git.PlainOpen. munfold. cbn.
  destruct (open_err env path); [reflexivity|]. by destruct (disk w !! path).
Qed.

Lemma PlainInit_run path bare env w :
  Git.PlainInit path bare env w =
  match init_err env path with
  | Some msg => (Val (None, Some (ErrOther msg)), log (EvPlainInit path bare) w)
  | None =>
      match disk w !! path with
      | Some _ => (Val (None, Some ErrRepositoryAlreadyExists), log (EvPlainInit path bare) w)
      | None =>
          (Val (Some {| Storer := path |}, None),
           with_disk (<[path := {| Remotes := ∅; References := ∅ |}]> (disk w))
             (log (EvPlainInit path bare) w))
      end
  end.
Proof.
  unfold Git.PlainInit. munfold. cbn.
  destruct (init_err env path); [reflexivity|]. by destruct (disk w !! path).
Qed.

Lemma Remote_run rr name env w :
  Git.Repository_Remote (Some rr) name env w =
  (Val match config_read_err env (Storer rr) with
       | Some msg => (None, Some (ErrOther msg))
       | None =>
           match Remotes (Git.storage_at w (Storer rr)) !! name with
           | None => (None, Some ErrRemoteNotFound)
           | Some rc => (Some {| r_s := Storer rr; r_c := rc |}, None)
           end
       end, w).
Proof.
  unfold Git.Repository_Remote. munfold.
  destruct (config_read_err env (Storer rr)); [reflexivity|].
  by destruct (Remotes (Git.storage_at w (Storer rr)) !! name).
Qed.

Lemma CreateRemote_run rr rc env w :
  Git.Repository_CreateRemote (Some rr) rc env w =
  let w1 := log (EvCreateRemote (Storer rr) rc) w in
  let st := Git.storage_at w (Storer rr) in
  match Git.RemoteConfig_Validate rc with
  | Some e => (Val (None, Some e), w1)
  | None =>
      match config_read_err env (Storer rr) with
      | Some msg => (Val (None, Some (ErrOther msg)), w1)
      | None =>
          match Remotes st !! Name rc with
          | Some _ => (Val (None, Some ErrRemoteExists), w1)
          | None =>
              match config_write_err env (Storer rr) with
              | Some msg => (Val (None, Some (ErrOther msg)), w1)
              | None =>
                  (Val (Some {| r_s := Storer rr; r_c := rc |}, None),
                   with_disk (<[Storer rr := {| Remotes := <[Name rc := rc]> (Remotes st);
                                                References := References st |}]> (disk w)) w1)
              end
          end
      end
  end.
Proof.
  unfold Git.Repository_CreateRemote. munfold. cbn.
  destruct (Git.RemoteConfig_Validate rc); [reflexivity|].
  destruct (config_read_err env (Storer rr)); [reflexivity|].
  unfold Git.storage_at at 1. cbn.
  destruct (Remotes _ !! Name rc); [reflexivity|].
  by destruct (config_write_err env (Storer rr)).
Qed.

Lemma Remote_Fetch_run rm o env w :
  Git.Remote_FetchContext (Some rm) o env w =
  let specs := match fo_RefSpecs o with [] => Fetch (r_c rm) | l => l end in
  let w1 := log (EvFetch (r_s rm) (URLs (r_c rm)) specs) w in
  let st := Git.storage_at w (r_s rm) in
  match URLs (r_c rm) with
  | [] => (Panic, w)
  | url :: _ =>
      match transport_err env url (fo_Auth o) with
      | Some msg => (Val (Some (ErrOther msg)), w1)
      | None =>
          match upstream w !! url with
          | None => (Val (Some (ErrOther "repository not found")), w1)
          | Some rrefs =>
              if decide (rrefs = ∅) then (Val (Some ErrEmptyRemoteRepository), w1)
              else
                let upd := Git.fetch_update env (r_s rm) (r_c rm) o rrefs
                             (References st) in
                (Val (upd.1),
                 with_disk (<[r_s rm := {| Remotes := Remotes st;
                                           References := upd.2 |}]> (disk w)) w1)
          end
      end
  end.
Proof.
  unfold Git.Remote_FetchContext. munfold. cbn.
  destruct (URLs (r_c rm)) as [|url urls]; [reflexivity|].
  destruct (transport_err env url (fo_Auth o)); [reflexivity|]. cbn.
  destruct (upstream w !! url) as [rrefs|]; [|reflexivity].
  destruct (decide (rrefs = ∅)); reflexivity.
Qed.

Lemma Remote_Push_run rm o env w :
  Git.Remote_PushContext (Some rm) o env w =
  let name := if String.eqb (po_RemoteName o) "" then DefaultRemoteName
              else po_RemoteName o in
  let specs := match po_RefSpecs o with [] => ["refs/heads/*:refs/heads/*"] | l => l end in
  let w1 := log (EvPush (r_s rm) (URLs (r_c rm)) specs) w in
  if negb (String.eqb name (Name (r_c rm)))
  then (Val (Some (ErrOther "remote names don't match")), w)
  else
    match URLs (r_c rm) with
    | [] => (Panic, w)
    | url :: _ =>
        match transport_err env url (po_Auth o) with
        | Some msg => (Val (Some (ErrOther msg)), w1)
        | None =>
            match upstream w !! url with
            | None => (Val (Some (ErrOther "repository not found")), w1)
            | Some rrefs =>
                let upd := Git.push_update env url o
                             (References (Git.storage_at w (r_s rm))) rrefs in
                (Val (upd.1), with_upstream (<[url := upd.2]> (upstream w)) w1)
            end
        end
    end.
Proof.
  unfold Git.Remote_PushContext. munfold. cbn.
  destruct (negb _); [reflexivity|].
  destruct (URLs (r_c rm)) as [|url urls]; [reflexivity|].
  destruct (transport_err env url (po_Auth o)); [reflexivity|]. cbn.
  destruct (upstream w !! url) as [rrefs|]; reflexivity.
Qed.

Lemma CheckInit_run path env w :
  repositoryShadowCheckInit path env w =
  (Val match open_err env path with
       | Some msg => (None, Some (ErrOther msg))
       | None =>
           match disk w !! path with
           | None => (None, None)
           | Some _ => (Some {| Storer := path |}, None)
           end
       end,
   log (EvPlainOpen path) w).
Proof.
  unfold repositoryShadowCheckInit. rewrite bind_run, PlainOpen_run.
  destruct (open_err env path); [reflexivity|]. by destruct (disk w !! path).
Qed.

Lemma Validate_sourceRemote url : Git.RemoteConfig_Validate (sourceRemote url) = None.
Proof. reflexivity. Qed.

Lemma storage_at_insert w d path st :
  disk w = <[path := st]> d -> Git.storage_at w path = st.
Proof. intros H. unfold Git.storage_at. by rewrite H, lookup_insert_eq. Qed.

Lemma storage_at_lookup w path st :
  disk w !! path = Some st -> Git.storage_at w path = st.
Proof. intros H. unfold Git.storage_at. by rewrite H. Qed.

Lemma fetch_update_mirror env path rc o rrefs refs :
  fo_RefSpecs o = [] -> Fetch rc = [mirrorRefSpec] ->
  Git.fetch_update env path rc o rrefs refs
  = Git.mirror_update (Git.blocked refs) (fetch_reached env path) rrefs refs.
Proof.
  intros Ho Hrc. unfold Git.fetch_update. rewrite Ho, Hrc.
  by destruct (decide _).
Qed.

(** ** The reference update *)
Lemma mirror_merge_tolerated (src dst : gmap string string) :
  (Git.mirror_merge src dst).1 = None
  \/ (Git.mirror_merge src dst).1 = Some NoErrAlreadyUpToDate.
Proof. unfold Git.mirror_merge. cbn. destruct (decide _); auto. Qed.

(** Either every pending reference is written, or the update ends in
    an error other than the up-to-date sentinel, with some of them
    written. *)
Lemma mirror_update_cases refused reached (src dst : gmap string string) :
  Git.mirror_update refused reached src dst = Git.mirror_merge src dst
  \/ exists msg,
       Git.mirror_update refused reached src dst
       = (Some (ErrOther msg),
          filter (fun kv => refused kv.1 = None /\ reached kv.1 = true)
            (Git.pending src dst) ∪ dst).
Proof.
  unfold Git.mirror_update. cbv zeta.
  destruct (omap _ _) as [|msg l]; [by left|right; by exists msg].
Qed.

Lemma mirror_update_success refused reached (src dst : gmap string string) :
  (Git.mirror_update refused reached src dst).1 = None
  \/ (Git.mirror_update refused reached src dst).1 = Some NoErrAlreadyUpToDate ->
  Git.mirror_update refused reached src dst = Git.mirror_merge src dst.
Proof.
  destruct (mirror_update_cases refused reached src dst) as [E|[msg E]]; [done|].
  rewrite E. by intros [|].
Qed.

(** Without a refusal among the pending references all are written. *)
Lemma mirror_update_accepted refused reached (src dst : gmap string string) :
  (forall n h, Git.pending src dst !! n = Some h -> refused n = None) ->
  Git.mirror_update refused reached src dst = Git.mirror_merge src dst.
Proof.
  intros H. unfold Git.mirror_update. cbv zeta.
  assert (omap (fun kv : string * string => refused kv.1)
            (map_to_list (Git.pending src dst)) = []) as ->; [|done].
  assert (Forall (fun kv : string * string => refused kv.1 = None)
            (map_to_list (Git.pending src dst))) as HF.
  { apply Forall_forall. intros [n h] Hin. apply elem_of_map_to_list in Hin.
    exact (H n h Hin). }
  induction HF as [|kv l Hkv _ IH]; [done|]. cbn. by rewrite Hkv.
Qed.

(** Nothing is pending once everything has been written. *)
Lemma pending_merged (src dst : gmap string string) :
  Git.pending src (Git.mirror_merge src dst).2 = ∅.
Proof.
  unfold Git.pending, Git.mirror_merge. cbn [snd]. apply map_empty. intros n.
  apply map_lookup_filter_None. right. intros h Hn Hne. cbn [fst snd] in Hne.
  apply Hne. by apply lookup_union_Some_l.
Qed.

Lemma blocked_empty n : Git.blocked ∅ n = None.
Proof.
  unfold Git.blocked.
  rewrite !bool_decide_eq_false_2; [done|..]; intros (m & h & Hm & _);
    by rewrite lookup_empty in Hm.
Qed.

(** A fetch into a repository without references writes them all. *)
Lemma mirror_update_fresh reached (src : gmap string string) :
  Git.mirror_update (Git.blocked ∅) reached src ∅ = Git.mirror_merge src ∅.
Proof. apply mirror_update_accepted. intros n h _. apply blocked_empty. Qed.

(** ** The transitions, inverted

    The initialization returns either an error with a [nil] repository,
    or the repository it made: the directory held none, the stored
    remotes are [origin] alone, with the source URL, and the references
    are those fetched from the source. *)
Lemma Init_inv path url keys env w res w' :
  repositoryShadowInit path url keys env w = (res, w') ->
  (exists e, res = Val (None, Some e))
  \/ (res = Val (Some {| Storer := path |}, None)
      /\ disk w !! path = None
      /\ exists rrefs, upstream w !! url = Some rrefs /\ rrefs <> ∅
         /\ transport_err env url keys = None
         /\ disk w' = <[path := {| Remotes := {[DefaultRemoteName := sourceRemote url]};
                                   References := Git.mirror_refs rrefs ∪ ∅ |}]> (disk w)
         /\ upstream w' = upstream w
         /\ trace w' = (trace w ++ [EvPlainInit path true;
                                    EvCreateRemote path (sourceRemote url);
                                    EvFetch path [url] [mirrorRefSpec]])%list).
Proof.
  unfold repositoryShadowInit. rewrite bind_run, PlainInit_run.
  destruct (init_err env path); [intros [= <- <-]; eauto|].
  destruct (disk w !! path) eqn:Hd; [intros [= <- <-]; eauto|].
  cbv beta iota. rewrite bind_run, CreateRemote_run, Validate_sourceRemote.
  cbv zeta. cbn [Storer].
  destruct (config_read_err env path); [intros [= <- <-]; eauto|].
  rewrite (storage_at_insert _ (disk w) path {| Remotes := ∅; References := ∅ |})
    by reflexivity.
  cbn [Remotes References]. rewrite lookup_empty.
  destruct (config_write_err env path); [intros [= <- <-]; eauto|].
  cbv beta iota. rewrite bind_run, Remote_Fetch_run.
  cbv zeta. cbn [r_c r_s sourceRemote URLs Fetch initOptions fo_RefSpecs fo_Auth Name].
  destruct (transport_err env url keys) eqn:Ht; [intros [= <- <-]; eauto|].
  cbn [upstream with_disk log].
  destruct (upstream w !! url) as [rrefs|] eqn:Hu; [|intros [= <- <-]; eauto].
  destruct (decide (rrefs = ∅)) as [|Hne]; [intros [= <- <-]; eauto|].
  erewrite storage_at_insert by reflexivity.
  cbn [Remotes References].
  rewrite fetch_update_mirror, mirror_update_fresh by reflexivity.
  destruct (mirror_merge_tolerated rrefs ∅) as [E|E]; rewrite E;
    (cbn; intros [= <- <-]; right; do 2 (split; [done|]); exists rrefs;
     cbn; rewrite ?insert_insert_eq, ?insert_empty, <- ?app_assoc;
     repeat split; done).
Qed.

(** The update panics (on a stored [origin] without URL), or returns an
    error with a [nil] repository, or returns the repository it opened:
    one was stored, with a remote [origin], and the fetch ran on the
    stored URL list and refspecs. *)
Lemma Update_inv r path keys env w res w' :
  repositoryShadowUpdate r path keys env w = (res, w') ->
  (res = Panic \/ exists e, res = Val (None, Some e))
  \/ (res = Val (Some {| Storer := path |}, None)
      /\ exists st rc url urls rrefs,
           disk w !! path = Some st
           /\ Remotes st !! DefaultRemoteName = Some rc
           /\ URLs rc = url :: urls
           /\ upstream w !! url = Some rrefs /\ rrefs <> ∅
           /\ transport_err env url keys = None
           /\ ((Git.fetch_update env path rc (updateOptions keys) rrefs (References st)).1 = None
               \/ (Git.fetch_update env path rc (updateOptions keys) rrefs (References st)).1
                  = Some NoErrAlreadyUpToDate)
           /\ disk w' = <[path := {| Remotes := Remotes st;
                                     References :=
                                       (Git.fetch_update env path rc (updateOptions keys) rrefs
                                          (References st)).2 |}]> (disk w)
           /\ upstream w' = upstream w
           /\ trace w' = (trace w ++ [EvPlainOpen path;
                                      EvFetch path (URLs rc) (Fetch rc)])%list).
Proof.
  unfold repositoryShadowUpdate. rewrite bind_run, PlainOpen_run.
  destruct (open_err env path); [intros [= <- <-]; eauto 6|].
  destruct (disk w !! path) as [st|] eqn:Hd; [|intros [= <- <-]; eauto 6].
  cbv beta iota. unfold Git.Repository_FetchContext. cbn [fo_RemoteName updateOptions].
  change (if String.eqb DefaultRemoteName "" then _ else _) with DefaultRemoteName.
  rewrite !bind_run, Remote_run. cbn [Storer].
  destruct (config_read_err env path); [intros [= <- <-]; eauto 6|].
  rewrite (storage_at_lookup (log (EvPlainOpen path) w) path st) by exact Hd.
  destruct (Remotes st !! DefaultRemoteName) as [rc|] eqn:Hrc;
    [|intros [= <- <-]; eauto 6].
  cbv beta iota. rewrite Remote_Fetch_run. cbv zeta.
  cbn [r_c r_s]. change (fo_Auth (updateOptions keys)) with keys.
  change (fo_RefSpecs (updateOptions keys)) with (@nil string). cbv iota.
  destruct (URLs rc) as [|url urls] eqn:Hurls; [intros [= <- <-]; eauto 6|].
  destruct (transport_err env url keys) eqn:Ht; [intros [= <- <-]; eauto 6|].
  cbn [upstream log].
  destruct (upstream w !! url) as [rrefs|] eqn:Hu; [|intros [= <- <-]; eauto 6].
  destruct (decide (rrefs = ∅)) as [|Hne]; [intros [= <- <-]; eauto 6|].
  rewrite (storage_at_lookup (log (EvPlainOpen path) w) path st) by exact Hd.
  destruct ((Git.fetch_update env path rc (updateOptions keys) rrefs (References st)).1)
    as [e|] eqn:E.
  - destruct (decide (e = NoErrAlreadyUpToDate)) as [->|Hn].
    + intros [= <- <-]. right. split; [done|].
      exists st, rc, url, urls, rrefs. cbn. rewrite <- ?app_assoc.
      repeat split; auto; by rewrite Hurls.
    + intros [= <- <-]; eauto 6.
  - intros [= <- <-]. right. split; [done|].
    exists st, rc, url, urls, rrefs. cbn. rewrite <- ?app_assoc.
    repeat split; auto; by rewrite Hurls.
Qed.

Lemma Push_nil url keys env w :
  repositoryShadowPushToNewOrigin None url keys env w = (Panic, w).
Proof. reflexivity. Qed.

Lemma Push_run rr url keys env w :
  repositoryShadowPushToNewOrigin (Some rr) url keys env w =
  match config_read_err env (Storer rr) with
  | Some msg => (Val (Some (ErrOther msg)), w)
  | None =>
      match Remotes (Git.storage_at w (Storer rr)) !! DefaultRemoteName with
      | None => (Panic, w)
      | Some rc =>
          match Git.Remote_PushContext
                  (Some (rewired {| r_s := Storer rr; r_c := rc |} url))
                  (pushOptions keys) env w with
          | (Val (Some e), w') =>
              (Val (if decide (e = NoErrAlreadyUpToDate) then None else Some e), w')
          | (Val None, w') => (Val None, w')
          | (Panic, w') => (Panic, w')
          end
      end
  end.
Proof.
  unfold repositoryShadowPushToNewOrigin. rewrite !bind_run, Remote_run.
  destruct (config_read_err env (Storer rr)); [reflexivity|].
  destruct (Remotes _ !! DefaultRemoteName) as [rc|]; [|reflexivity].
  cbv beta iota. rewrite bind_run, ret_run. cbv beta iota. cbn [deref].
  rewrite bind_run, ret_run. cbv beta iota. rewrite bind_run.
  destruct (Git.Remote_PushContext _ _ env w) as [[[e|]|] w']; try reflexivity.
  by destruct (decide (e = NoErrAlreadyUpToDate)).
Qed.

(** ** The orchestrator in closed form *)
Lemma pushStage_run r dst env w :
  pushStage r (Some dst) env w =
  match key_failure env dst with
  | Some msg => (Val (Some (ErrOther msg)), log (key_event dst) w)
  | None =>
      repositoryShadowPushToNewOrigin r (RepoUrl dst) (keys_of dst) env
        (log (key_event dst) w)
  end.
Proof.
  unfold pushStage, key_failure, key_event, keys_of. cbn [deref].
  rewrite bind_run, ret_run. cbv beta iota. rewrite bind_run, KeyRead_run.
  destruct (key_err env "git" _ _); [reflexivity|].
  cbv beta iota. rewrite bind_run.
  by destruct (repositoryShadowPushToNewOrigin _ _ _ env _) as [[[e|]|] w'].
Qed.

Lemma pushStage_nil r env w : pushStage r None env w = (Panic, w).
Proof. reflexivity. Qed.

Lemma sync_run rsc so src dst env w :
  getRepositoryAccess_range (Repositories rsc) (SourceName so) = Val (Some src) ->
  getRepositoryAccess_range (Repositories rsc) (DestinationName so) = Val dst ->
  doRepositoriesSync rsc (Some so) env w =
  let path := shadow_of rsc src in
  let w1 := log (EvMkdirAll path 644) w in
  let w2 := log (key_event src) w1 in
  let w3 := log (EvPlainOpen path) w2 in
  match mkdir_err env path 644 with
  | Some msg => (Val (Some (ErrOther msg)), w1)
  | None =>
      match key_failure env src with
      | Some msg => (Val (Some (ErrOther msg)), w2)
      | None =>
          match open_err env path with
          | Some msg => (Val (Some (ErrOther msg)), w3)
          | None =>
              match initOrUpdate (checked w path) path (RepoUrl src) (keys_of src) env w3 with
              | (Val (r, _), w4) => pushStage r dst env w4
              | (Panic, w4) => (Panic, w4)
              end
          end
      end
  end.
Proof.
  intros Hs Hd. unfold doRepositoriesSync, pushStage, getRepositoryAccess.
  cbn [deref]. rewrite bind_run, ret_run. cbv beta iota.
  rewrite bind_run, Hs. cbv beta iota. rewrite bind_run, Hd. cbv beta iota.
  cbn [deref]. rewrite bind_run, ret_run. cbv beta iota.
  rewrite bind_run, repositoryShadowCreateDir_run.
  unfold shadow_of, key_failure, key_event, keys_of, checked. cbv zeta.
  destruct (mkdir_err env _ 644); [reflexivity|]. cbv beta iota.
  rewrite bind_run, KeyRead_run.
  destruct (key_err env "git" _ _); [reflexivity|]. cbv beta iota.
  rewrite bind_run, CheckInit_run.
  destruct (open_err env _); [reflexivity|]. cbn [disk log].
  destruct (disk w !! _); cbv beta iota; rewrite bind_run; cbn [initOrUpdate].
  - by destruct (repositoryShadowUpdate _ _ _ env _) as [[[r' err']|] w4].
  - by destruct (repositoryShadowInit _ _ _ env _) as [[[r' err']|] w4].
Qed.

(** ** Unresolved names *)
Lemma lookup_miss_total l n m :
  getRepositoryAccess_range l n = Val None ->
  exists x, getRepositoryAccess_range l m = Val x.
Proof.
  induction l as [|[e|] l IH]; cbn; [eauto| |discriminate].
  destruct (String.eqb (RepoName e) n); [discriminate|].
  intros H. destruct (String.eqb (RepoName e) m); eauto.
Qed.

(** C1 (the code departs from it).  A source name that matches no
    configured repository makes the sync panic on the [nil] descriptor
    at once, without an error value; a destination name that matches
    none lets the sync make the directory, read the source key, open
    and initialize or update the shadow, and panic only then. *)
Theorem unresolved_name_is_dereferenced rsc so env w :
  (getRepositoryAccess_range (Repositories rsc) (SourceName so) = Val None ->
   doRepositoriesSync rsc (Some so) env w = (Panic, w))
  /\ (forall src,
        getRepositoryAccess_range (Repositories rsc) (SourceName so) = Val (Some src) ->
        getRepositoryAccess_range (Repositories rsc) (DestinationName so) = Val None ->
        mkdir_err env (shadow_of rsc src) 644 = None ->
        key_failure env src = None ->
        open_err env (shadow_of rsc src) = None ->
        doRepositoriesSync rsc (Some so) env w =
        (Panic,
         (initOrUpdate (checked w (shadow_of rsc src)) (shadow_of rsc src) (RepoUrl src)
            (keys_of src) env
            (log (EvPlainOpen (shadow_of rsc src))
               (log (key_event src) (log (EvMkdirAll (shadow_of rsc src) 644) w)))).2)).
Proof.
  split.
  - intros Hs. destruct (lookup_miss_total _ _ (DestinationName so) Hs) as [x Hx].
    unfold doRepositoriesSync, getRepositoryAccess. cbn [deref].
    rewrite bind_run, ret_run. cbv beta iota.
    rewrite bind_run, Hs. cbv beta iota. rewrite bind_run, Hx. cbv beta iota.
    reflexivity.
  - intros src Hs Hd Hm Hk Ho. rewrite (sync_run _ _ _ _ _ _ Hs Hd). cbv zeta.
    rewrite Hm, Hk, Ho.
    destruct (initOrUpdate _ _ _ _ env _) as [[[r' err']|] w4]; reflexivity.
Qed.

Lemma unresolved_name_is_dereferenced_witness :
  doRepositoriesSync Fixtures.rsc_empty (Some Fixtures.pair) Fixtures.env_ok Fixtures.w0
    = (Panic, Fixtures.w0)
  /\ (doRepositoriesSync Fixtures.rsc_no_dst (Some Fixtures.pair) Fixtures.env_ok
        Fixtures.w0).1 = Panic
  /\ In (EvFetch Fixtures.shadow [RepoUrl Fixtures.alpha] [mirrorRefSpec])
        (trace (doRepositoriesSync Fixtures.rsc_no_dst (Some Fixtures.pair) Fixtures.env_ok
                  Fixtures.w0).2).
Proof.
  split.
  - apply (proj1 (unresolved_name_is_dereferenced Fixtures.rsc_empty Fixtures.pair
                    Fixtures.env_ok Fixtures.w0)). reflexivity.
  - rewrite (proj2 (unresolved_name_is_dereferenced Fixtures.rsc_no_dst Fixtures.pair
                      Fixtures.env_ok Fixtures.w0) Fixtures.alpha)
      by reflexivity.
    split; [reflexivity|]. vm_compute. tauto.
Defined.

(** ** The error of the initialize-or-update step *)
Lemma initOrUpdate_shape r0 path url keys env w res w' :
  initOrUpdate r0 path url keys env w = (res, w') ->
  res = Panic \/ (exists e, res = Val (None, Some e))
  \/ res = Val (Some {| Storer := path |}, None).
Proof.
  destruct r0 as [r0|]; cbn [initOrUpdate]; intros H.
  - apply Update_inv in H. destruct H as [[?|?]|[? _]]; auto.
  - apply Init_inv in H. destruct H as [?|[? _]]; auto.
Qed.

Lemma initOrUpdate_error_nil r0 path url keys env w r e w' :
  initOrUpdate r0 path url keys env w = (Val (r, Some e), w') -> r = None.
Proof.
  intros H. apply initOrUpdate_shape in H. destruct H as [H|[[e' H]|H]]; congruence.
Qed.

(** C2 (the code departs from it).  When the initialize-or-update step
    returns an error, the sync does not return: it goes on to read the
    destination key, and then either returns the error of that read or
    calls the push step on a [nil] repository, which panics.  The error
    of the step is never returned. *)
Theorem init_or_update_error_is_dropped rsc so src dst env w r e w4 :
  getRepositoryAccess_range (Repositories rsc) (SourceName so) = Val (Some src) ->
  getRepositoryAccess_range (Repositories rsc) (DestinationName so) = Val (Some dst) ->
  mkdir_err env (shadow_of rsc src) 644 = None ->
  key_failure env src = None ->
  open_err env (shadow_of rsc src) = None ->
  initOrUpdate (checked w (shadow_of rsc src)) (shadow_of rsc src) (RepoUrl src)
    (keys_of src) env
    (log (EvPlainOpen (shadow_of rsc src))
       (log (key_event src) (log (EvMkdirAll (shadow_of rsc src) 644) w)))
    = (Val (r, Some e), w4) ->
  doRepositoriesSync rsc (Some so) env w =
  (match key_failure env dst with
   | Some msg => Val (Some (ErrOther msg))
   | None => Panic
   end, log (key_event dst) w4).
Proof.
  intros Hs Hd Hm Hk Ho Hstep. rewrite (sync_run _ _ _ _ _ _ Hs Hd). cbv zeta.
  rewrite Hm, Hk, Ho, Hstep. rewrite (initOrUpdate_error_nil _ _ _ _ _ _ _ _ _ Hstep).
  rewrite pushStage_run. destruct (key_failure env dst); [reflexivity|].
  apply Push_nil.
Qed.

Lemma init_or_update_error_is_dropped_witness :
  (doRepositoriesSync Fixtures.rsc (Some Fixtures.pair) Fixtures.env_offline
     Fixtures.w0).1 = Panic
  /\ last (trace (doRepositoriesSync Fixtures.rsc (Some Fixtures.pair) Fixtures.env_offline
                    Fixtures.w0).2)
     = Some (key_event Fixtures.beta).
Proof.
  rewrite (init_or_update_error_is_dropped Fixtures.rsc Fixtures.pair Fixtures.alpha
             Fixtures.beta Fixtures.env_offline Fixtures.w0 None
             (ErrOther "dial tcp: connection refused")
             (initOrUpdate (checked Fixtures.w0 (shadow_of Fixtures.rsc Fixtures.alpha))
                (shadow_of Fixtures.rsc Fixtures.alpha) (RepoUrl Fixtures.alpha)
                (keys_of Fixtures.alpha) Fixtures.env_offline
                (log (EvPlainOpen (shadow_of Fixtures.rsc Fixtures.alpha))
                   (log (key_event Fixtures.alpha)
                      (log (EvMkdirAll (shadow_of Fixtures.rsc Fixtures.alpha) 644)
                         Fixtures.w0)))).2).
  - split; [reflexivity|]. cbn [snd log trace]. apply last_snoc.
  - reflexivity.
  - reflexivity.
  - reflexivity.
  - reflexivity.
  - reflexivity.
  - vm_compute. reflexivity.
Defined.

(** ** The repository handed to the push step *)

(** A step that succeeds hands over the repository of the shadow
    directory, in which [origin] is stored. *)
Lemma transition_success_has_origin r0 path url keys env w rr w' :
  initOrUpdate r0 path url keys env w = (Val (Some rr, None), w') ->
  rr = {| Storer := path |}
  /\ is_Some (Remotes (Git.storage_at w' path) !! DefaultRemoteName).
Proof.
  destruct r0 as [r0|]; cbn [initOrUpdate]; intros H.
  - apply Update_inv in H. destruct H as [[H|[e H]]|[H H']]; [discriminate..|].
    split; [congruence|].
    destruct H' as (st & rc & url' & urls & rrefs & Hd & Hrc & _ & _ & _ & _ & _ & Hd' & _).
    erewrite storage_at_insert by exact Hd'. cbn [Remotes]. eauto.
  - apply Init_inv in H. destruct H as [[e H]|(H & _ & rrefs & _ & _ & _ & Hd' & _)];
      [discriminate|].
    split; [congruence|].
    erewrite storage_at_insert by exact Hd'. cbn [Remotes].
    rewrite lookup_singleton_eq. eauto.
Qed.

Lemma push_with_origin_no_panic rr url keys env w :
  is_Some (Remotes (Git.storage_at w (Storer rr)) !! DefaultRemoteName) ->
  (repositoryShadowPushToNewOrigin (Some rr) url keys env w).1 <> Panic.
Proof.
  intros [rc Hrc]. rewrite Push_run, Hrc.
  destruct (config_read_err env (Storer rr)); [done|].
  rewrite Remote_Push_run. cbv zeta. cbn [rewired r_c r_s URLs].
  destruct (negb _); [cbn; by destruct (decide _)|].
  destruct (transport_err _ _ _); [cbn; by destruct (decide _)|].
  destruct (upstream w !! _); [|cbn; by destruct (decide _)].
  destruct (Git.push_update _ _ _ _ _).1; [cbn; by destruct (decide _)|done].
Qed.

(** C9 (the code departs from it).  When the initialize-or-update step
    fails, the repository it returns is [nil], and that is the value the
    orchestrator goes on with: once the destination key has been read,
    the push step is run on it and panics. *)
Theorem failed_transition_hands_nil_to_push r0 path url keys env w r e w' :
  initOrUpdate r0 path url keys env w = (Val (r, Some e), w') ->
  r = None
  /\ forall dst,
       pushStage r (Some dst) env w' =
       (match key_failure env dst with
        | Some msg => Val (Some (ErrOther msg))
        | None => Panic
        end, log (key_event dst) w').
Proof.
  intros H. pose proof (initOrUpdate_error_nil _ _ _ _ _ _ _ _ _ H) as ->.
  split; [done|]. intros dst. rewrite pushStage_run.
  destruct (key_failure env dst); [reflexivity|]. apply Push_nil.
Qed.

Lemma failed_transition_hands_nil_to_push_witness :
  let step := initOrUpdate None Fixtures.shadow (RepoUrl Fixtures.alpha)
                (keys_of Fixtures.alpha) Fixtures.env_offline Fixtures.w0 in
  step.1 = Val (None, Some (ErrOther "dial tcp: connection refused"))
  /\ (pushStage None (Some Fixtures.beta) Fixtures.env_offline step.2).1 = Panic.
Proof.
  intros step.
  assert (step = (Val (None, Some (ErrOther "dial tcp: connection refused")), step.2))
    as Hstep by (vm_compute; reflexivity).
  split; [by rewrite Hstep|].
  destruct (failed_transition_hands_nil_to_push _ _ _ _ _ _ _ _ _ Hstep) as [_ Hpush].
  by rewrite Hpush.
Defined.

(** ** The branch on the state of the shadow directory *)

(** C5.  The check turns the not-exists outcome of the open into "no
    repository, no error" and returns every other error of the open;
    the orchestrator returns such an error at once, runs the
    initialization exactly when no repository is stored at the shadow
    path, and the update exactly when one is. *)
Theorem not_initialized_triggers_init :
  (forall path env w r err w',
     Git.PlainOpen path env w = (Val (r, err), w') ->
     (err = Some ErrRepositoryNotExists ->
      repositoryShadowCheckInit path env w = (Val (None, None), w'))
     /\ (forall e, err = Some e -> e <> ErrRepositoryNotExists ->
         repositoryShadowCheckInit path env w = (Val (None, Some e), w'))
     /\ (err = None -> repositoryShadowCheckInit path env w = (Val (r, None), w')))
  /\ (forall rsc so src dst env w,
        getRepositoryAccess_range (Repositories rsc) (SourceName so) = Val (Some src) ->
        getRepositoryAccess_range (Repositories rsc) (DestinationName so) = Val dst ->
        mkdir_err env (shadow_of rsc src) 644 = None ->
        key_failure env src = None ->
        let path := shadow_of rsc src in
        let w3 := log (EvPlainOpen path)
                    (log (key_event src) (log (EvMkdirAll path 644) w)) in
        (forall msg, open_err env path = Some msg ->
           doRepositoriesSync rsc (Some so) env w = (Val (Some (ErrOther msg)), w3))
        /\ (open_err env path = None -> disk w !! path = None ->
            doRepositoriesSync rsc (Some so) env w =
            ('(r, _) ← repositoryShadowInit path (RepoUrl src) (keys_of src);
             pushStage r dst) env w3)
        /\ (forall st, open_err env path = None -> disk w !! path = Some st ->
            doRepositoriesSync rsc (Some so) env w =
            ('(r, _) ← repositoryShadowUpdate (Some {| Storer := path |}) path (keys_of src);
             pushStage r dst) env w3)).
Proof.
  split.
  - intros path env w r err w' H.
    unfold repositoryShadowCheckInit. rewrite bind_run, H. cbv beta iota.
    split; [|split].
    + intros ->. reflexivity.
    + intros e -> Hne. by destruct (decide (e = ErrRepositoryNotExists)).
    + intros ->. reflexivity.
  - intros rsc so src dst env w Hs Hd Hm Hk path w3.
    rewrite (sync_run _ _ _ _ _ _ Hs Hd). cbv zeta. rewrite Hm, Hk.
    fold path. fold w3. split; [|split].
    + intros msg ->. reflexivity.
    + intros -> Hnone. unfold checked. rewrite Hnone. cbn [initOrUpdate].
      rewrite bind_run.
      by destruct (repositoryShadowInit _ _ _ env w3) as [[[r e]|] w4].
    + intros st -> Hsome. unfold checked. rewrite Hsome. cbn [initOrUpdate].
      rewrite bind_run.
      by destruct (repositoryShadowUpdate _ _ _ env w3) as [[[r e]|] w4].
Qed.

Lemma not_initialized_triggers_init_witness :
  let path := shadow_of Fixtures.rsc Fixtures.alpha in
  let w3 := log (EvPlainOpen path)
              (log (key_event Fixtures.alpha) (log (EvMkdirAll path 644) Fixtures.w0)) in
  repositoryShadowCheckInit path Fixtures.env_ok Fixtures.w0
    = (Val (None, None), log (EvPlainOpen path) Fixtures.w0)
  /\ doRepositoriesSync Fixtures.rsc (Some Fixtures.pair) Fixtures.env_locked Fixtures.w0
     = (Val (Some (ErrOther "permission denied")), w3)
  /\ doRepositoriesSync Fixtures.rsc (Some Fixtures.pair) Fixtures.env_ok Fixtures.w0
     = ('(r, _) ← repositoryShadowInit path (RepoUrl Fixtures.alpha) (keys_of Fixtures.alpha);
        pushStage r (Some Fixtures.beta)) Fixtures.env_ok w3.
Proof.
  intros path w3.
  destruct not_initialized_triggers_init as [HA HB].
  assert (disk Fixtures.w0 !! path = None) as Hnone by apply lookup_empty.
  split; [|split].
  - refine (proj1 (HA path Fixtures.env_ok Fixtures.w0 None
                     (Some ErrRepositoryNotExists) _ _) eq_refl).
    rewrite PlainOpen_run. cbn [open_err Fixtures.env_ok]. by rewrite Hnone.
  - exact (proj1 (HB Fixtures.rsc Fixtures.pair Fixtures.alpha (Some Fixtures.beta)
                    Fixtures.env_locked Fixtures.w0 eq_refl eq_refl eq_refl eq_refl)
             "permission denied" eq_refl).
  - exact (proj1 (proj2 (HB Fixtures.rsc Fixtures.pair Fixtures.alpha (Some Fixtures.beta)
                           Fixtures.env_ok Fixtures.w0 eq_refl eq_refl eq_refl eq_refl))
             eq_refl Hnone).
Defined.

(** ** The up-to-date sentinel *)

(** C4.  In the initialization, in the update and in the push, the
    outcome [NoErrAlreadyUpToDate] of the transport call is turned into
    success, as is the absence of an error; every other error of the
    call is returned as it is. *)
Theorem already_up_to_date_is_success :
  (forall path url keys env w r w1 rem w2 err w3,
     Git.PlainInit path true env w = (Val (r, None), w1) ->
     Git.Repository_CreateRemote r (sourceRemote url) env w1 = (Val (rem, None), w2) ->
     Git.Remote_FetchContext rem (initOptions keys) env w2 = (Val err, w3) ->
     (err = Some NoErrAlreadyUpToDate \/ err = None ->
      repositoryShadowInit path url keys env w = (Val (r, None), w3))
     /\ (forall e, err = Some e -> e <> NoErrAlreadyUpToDate ->
         repositoryShadowInit path url keys env w = (Val (None, Some e), w3)))
  /\ (forall r0 path keys env w r w1 err w2,
        Git.PlainOpen path env w = (Val (r, None), w1) ->
        Git.Repository_FetchContext r (updateOptions keys) env w1 = (Val err, w2) ->
        (err = Some NoErrAlreadyUpToDate \/ err = None ->
         repositoryShadowUpdate r0 path keys env w = (Val (r, None), w2))
        /\ (forall e, err = Some e -> e <> NoErrAlreadyUpToDate ->
            repositoryShadowUpdate r0 path keys env w = (Val (None, Some e), w2)))
  /\ (forall r url keys env w rm w1 err w2,
        Git.Repository_Remote r DefaultRemoteName env w = (Val (Some rm, None), w1) ->
        Git.Remote_PushContext (Some (rewired rm url)) (pushOptions keys) env w1
          = (Val err, w2) ->
        (err = Some NoErrAlreadyUpToDate \/ err = None ->
         repositoryShadowPushToNewOrigin r url keys env w = (Val None, w2))
        /\ (forall e, err = Some e -> e <> NoErrAlreadyUpToDate ->
            repositoryShadowPushToNewOrigin r url keys env w = (Val (Some e), w2))).
Proof.
  split; [|split].
  - intros path url keys env w r w1 rem w2 err w3 H1 H2 H3.
    unfold repositoryShadowInit. rewrite bind_run, H1. cbv beta iota.
    rewrite bind_run, H2. cbv beta iota. rewrite bind_run, H3. cbv beta iota.
    split.
    + intros [->| ->]; reflexivity.
    + intros e -> Hne. by destruct (decide (e = NoErrAlreadyUpToDate)).
  - intros r0 path keys env w r w1 err w2 H1 H2.
    unfold repositoryShadowUpdate. rewrite bind_run, H1. cbv beta iota.
    rewrite bind_run, H2. cbv beta iota.
    split.
    + intros [->| ->]; reflexivity.
    + intros e -> Hne. by destruct (decide (e = NoErrAlreadyUpToDate)).
  - intros r url keys env w rm w1 err w2 H1 H2.
    unfold repositoryShadowPushToNewOrigin. rewrite bind_run, H1. cbv beta iota.
    rewrite bind_run, ret_run. cbv beta iota. cbn [deref].
    rewrite bind_run, ret_run. cbv beta iota. rewrite bind_run, H2. cbv beta iota.
    split.
    + intros [->| ->]; reflexivity.
    + intros e -> Hne. by destruct (decide (e = NoErrAlreadyUpToDate)).
Qed.

Lemma already_up_to_date_is_success_witness :
  let w1 := (doRepositoriesSync Fixtures.rsc (Some Fixtures.pair) Fixtures.env_ok
               Fixtures.w0).2 in
  let opened := Git.PlainOpen Fixtures.shadow Fixtures.env_ok w1 in
  let fetched := Git.Repository_FetchContext (Some {| Storer := Fixtures.shadow |})
                   (updateOptions Fixtures.keys_alpha) Fixtures.env_ok opened.2 in
  fetched.1 = Val (Some NoErrAlreadyUpToDate)
  /\ repositoryShadowUpdate None Fixtures.shadow Fixtures.keys_alpha Fixtures.env_ok w1
     = (Val (Some {| Storer := Fixtures.shadow |}, None), fetched.2).
Proof.
  intros w1 opened fetched.
  assert (opened = (Val (Some {| Storer := Fixtures.shadow |}, None), opened.2)) as H1
    by (vm_compute; reflexivity).
  assert (fetched = (Val (Some NoErrAlreadyUpToDate), fetched.2)) as H2
    by (vm_compute; reflexivity).
  split; [by rewrite H2|].
  exact (proj1 (proj1 (proj2 already_up_to_date_is_success) None Fixtures.shadow
                  Fixtures.keys_alpha Fixtures.env_ok w1 _ _ _ _ H1 H2)
           (or_introl eq_refl)).
Defined.

(** ** The remote binding of the shadow *)

(** The push step writes nothing to the local disk. *)
Lemma Push_disk r url keys env w :
  disk (repositoryShadowPushToNewOrigin r url keys env w).2 = disk w.
Proof.
  destruct r as [rr|]; [|reflexivity].
  rewrite Push_run.
  destruct (config_read_err env (Storer rr)); [reflexivity|].
  destruct (Remotes _ !! DefaultRemoteName) as [rc|]; [|reflexivity].
  rewrite Remote_Push_run. cbv zeta. cbn [rewired r_c r_s URLs].
  destruct (negb _); [by destruct (decide _)|].
  destruct (transport_err _ _ _); [by destruct (decide _)|].
  destruct (upstream w !! _); [|by destruct (decide _)].
  destruct (Git.push_update _ _ _ _ _).1 as [e|]; [by destruct (decide _)|done].
Qed.

(** A push step that succeeds ran on the in-memory remote whose URL
    list is the destination URL alone. *)
Lemma Push_success_inv r url keys env w w' :
  repositoryShadowPushToNewOrigin r url keys env w = (Val None, w') ->
  exists rr rc,
    r = Some rr
    /\ Remotes (Git.storage_at w (Storer rr)) !! DefaultRemoteName = Some rc
    /\ trace w' = (trace w ++ [EvPush (Storer rr) [url] [mirrorRefSpec]])%list.
Proof.
  destruct r as [rr|]; [|by rewrite Push_nil].
  rewrite Push_run.
  destruct (config_read_err env (Storer rr)); [discriminate|].
  destruct (Remotes _ !! DefaultRemoteName) as [rc|] eqn:Hrc; [|discriminate].
  rewrite Remote_Push_run. cbv zeta. cbn [rewired r_c r_s URLs pushOptions po_RefSpecs].
  intros H. exists rr, rc. split; [done|]. split; [done|]. revert H.
  destruct (negb _); [by destruct (decide _)|].
  destruct (transport_err _ _ _); [by destruct (decide _)|].
  destruct (upstream w !! _); [|by destruct (decide _)].
  destruct (Git.push_update _ _ _ _ _).1 as [e|].
  - destruct (decide _); [|discriminate]. by intros [= <-].
  - by intros [= <-].
Qed.

(** What a successful sync went through. *)
Lemma sync_success_inv rsc so env w w' :
  doRepositoriesSync rsc (Some so) env w = (Val None, w') ->
  exists src dst w4,
    getRepositoryAccess_range (Repositories rsc) (SourceName so) = Val (Some src)
    /\ getRepositoryAccess_range (Repositories rsc) (DestinationName so) = Val (Some dst)
    /\ initOrUpdate (checked w (shadow_of rsc src)) (shadow_of rsc src) (RepoUrl src)
         (keys_of src) env
         (log (EvPlainOpen (shadow_of rsc src))
            (log (key_event src) (log (EvMkdirAll (shadow_of rsc src) 644) w)))
       = (Val (Some {| Storer := shadow_of rsc src |}, None), w4)
    /\ repositoryShadowPushToNewOrigin (Some {| Storer := shadow_of rsc src |})
         (RepoUrl dst) (keys_of dst) env (log (key_event dst) w4) = (Val None, w').
Proof.
  intros H.
  destruct (getRepositoryAccess_range (Repositories rsc) (SourceName so))
    as [[src|]|] eqn:Hs.
  - destruct (getRepositoryAccess_range (Repositories rsc) (DestinationName so))
      as [dst|] eqn:Hd.
    + rewrite (sync_run _ _ _ _ _ _ Hs Hd) in H. cbv zeta in H.
      destruct (mkdir_err env _ 644); [discriminate|].
      destruct (key_failure env src); [discriminate|].
      destruct (open_err env _); [discriminate|].
      destruct (initOrUpdate _ _ _ _ env _) as [[[r err]|] w4] eqn:Hstep;
        [|discriminate].
      destruct dst as [dst|]; [|by rewrite pushStage_nil in H].
      rewrite pushStage_run in H.
      destruct (key_failure env dst); [discriminate|].
      destruct (initOrUpdate_shape _ _ _ _ _ _ _ _ Hstep) as [He|[[e He]|He]].
      * discriminate.
      * injection He as -> ->. by rewrite Push_nil in H.
      * injection He as -> ->. exists src, dst, w4. eauto.
    + unfold doRepositoriesSync, getRepositoryAccess in H. cbn [deref] in H.
      rewrite bind_run, ret_run in H. cbv beta iota in H.
      rewrite bind_run, Hs in H. cbv beta iota in H.
      rewrite bind_run, Hd in H. discriminate.
  - unfold doRepositoriesSync, getRepositoryAccess in H. cbn [deref] in H.
    destruct (lookup_miss_total _ _ (DestinationName so) Hs) as [x Hx].
    rewrite bind_run, ret_run in H. cbv beta iota in H.
    rewrite bind_run, Hs in H. cbv beta iota in H.
    rewrite bind_run, Hx in H. discriminate.
  - unfold doRepositoriesSync, getRepositoryAccess in H. cbn [deref] in H.
    rewrite bind_run, ret_run in H. cbv beta iota in H.
    rewrite bind_run, Hs in H. discriminate.
Qed.
(** C3, as amended.  After a successful sync the shadow repository
    stores what it stored before or, when the sync created it, exactly
    one remote, [origin], whose URL list is the source URL alone; the
    destination URL is the whole URL list of the in-memory remote on
    which the push, the last call of the sync, was run. *)
Theorem sync_keeps_stored_remote rsc so env w w' :
  doRepositoriesSync rsc (Some so) env w = (Val None, w') ->
  exists src dst,
    getRepositoryAccess_range (Repositories rsc) (SourceName so) = Val (Some src)
    /\ getRepositoryAccess_range (Repositories rsc) (DestinationName so) = Val (Some dst)
    /\ (exists st', disk w' !! shadow_of rsc src = Some st'
          /\ Remotes st' = match disk w !! shadow_of rsc src with
                           | None => {[DefaultRemoteName := sourceRemote (RepoUrl src)]}
                           | Some st => Remotes st
                           end)
    /\ exists t, trace w' = (trace w ++ t
                   ++ [EvPush (shadow_of rsc src) [RepoUrl dst] [mirrorRefSpec]])%list.
Proof.
  intros H. apply sync_success_inv in H.
  destruct H as (src & dst & w4 & Hs & Hd & Hstep & Hpush).
  exists src, dst. split; [done|]. split; [done|].
  pose proof (Push_disk (Some {| Storer := shadow_of rsc src |}) (RepoUrl dst)
                (keys_of dst) env (log (key_event dst) w4)) as Hdisk.
  rewrite Hpush in Hdisk. cbn [snd log disk] in Hdisk.
  apply Push_success_inv in Hpush.
  destruct Hpush as (rr & rc & [= <-] & _ & Htr). cbn [Storer log trace] in Htr.
  unfold checked in Hstep.
  destruct (disk w !! shadow_of rsc src) as [st|] eqn:Hw; cbn [initOrUpdate] in Hstep.
  - apply Update_inv in Hstep.
    destruct Hstep as [[He|[e He]]|[_ Hstep]]; [discriminate..|].
    destruct Hstep as (st0 & rc0 & url & urls & rrefs & Hst0 & _ & _ & _ & _ & _ & _
                       & Hd4 & _ & Ht4).
    cbn [log disk trace] in Hst0, Hd4, Ht4. rewrite Hw in Hst0. injection Hst0 as <-.
    split.
    + eexists. rewrite Hdisk, Hd4, lookup_insert_eq. split; reflexivity.
    + exists ([EvMkdirAll (shadow_of rsc src) 644; key_event src;
               EvPlainOpen (shadow_of rsc src); EvPlainOpen (shadow_of rsc src);
               EvFetch (shadow_of rsc src) (URLs rc0) (Fetch rc0); key_event dst])%list.
      rewrite Htr, Ht4, <- !app_assoc. reflexivity.
  - apply Init_inv in Hstep. destruct Hstep as [[e He]|[_ Hstep]]; [discriminate|].
    destruct Hstep as (_ & rrefs & _ & _ & _ & Hd4 & _ & Ht4).
    cbn [log disk trace] in Hd4, Ht4.
    split.
    + eexists. rewrite Hdisk, Hd4, lookup_insert_eq. split; reflexivity.
    + exists ([EvMkdirAll (shadow_of rsc src) 644; key_event src;
               EvPlainOpen (shadow_of rsc src); EvPlainInit (shadow_of rsc src) true;
               EvCreateRemote (shadow_of rsc src) (sourceRemote (RepoUrl src));
               EvFetch (shadow_of rsc src) [RepoUrl src] [mirrorRefSpec];
               key_event dst])%list.
      rewrite Htr, Ht4, <- !app_assoc. reflexivity.
Qed.

Lemma first_sync_succeeds :
  doRepositoriesSync Fixtures.rsc (Some Fixtures.pair) Fixtures.env_ok Fixtures.w0
  = (Val None,
     (doRepositoriesSync Fixtures.rsc (Some Fixtures.pair) Fixtures.env_ok Fixtures.w0).2).
Proof. vm_compute. reflexivity. Qed.

Lemma first_sync_stored :
  Remotes (Git.storage_at
             (doRepositoriesSync Fixtures.rsc (Some Fixtures.pair) Fixtures.env_ok
                Fixtures.w0).2 (shadow_of Fixtures.rsc Fixtures.alpha))
  = {[DefaultRemoteName := sourceRemote (RepoUrl Fixtures.alpha)]}.
Proof. vm_compute. reflexivity. Qed.

(** The second sync of the pair opens the shadow that the first one
    made, fetches from the source URL and pushes to the destination
    URL. *)
Example second_sync_trace :
  let w1 := (doRepositoriesSync Fixtures.rsc (Some Fixtures.pair) Fixtures.env_ok
               Fixtures.w0).2 in
  doRepositoriesSync Fixtures.rsc (Some Fixtures.pair) Fixtures.env_ok w1
  = (Val None,
     {| disk := disk w1; upstream := upstream w1;
        trace := (trace w1 ++
                  [EvMkdirAll Fixtures.shadow 644;
                   key_event Fixtures.alpha;
                   EvPlainOpen Fixtures.shadow;
                   EvPlainOpen Fixtures.shadow;
                   EvFetch Fixtures.shadow [RepoUrl Fixtures.alpha] [mirrorRefSpec];
                   key_event Fixtures.beta;
                   EvPush Fixtures.shadow [RepoUrl Fixtures.beta] [mirrorRefSpec]])%list |}).
Proof. vm_compute. reflexivity. Qed.

Lemma sync_keeps_stored_remote_witness :
  exists st',
    disk (doRepositoriesSync Fixtures.rsc (Some Fixtures.pair) Fixtures.env_ok
            Fixtures.w0).2 !! shadow_of Fixtures.rsc Fixtures.alpha = Some st'
    /\ Remotes st' = {[DefaultRemoteName := sourceRemote (RepoUrl Fixtures.alpha)]}.
Proof.
  destruct (sync_keeps_stored_remote _ _ _ _ _ first_sync_succeeds)
    as (src & dst & Hs & Hd & (st' & Hst' & HR) & _).
  injection Hs as <-. exists st'. split; [exact Hst'|].
  rewrite HR. unfold Fixtures.w0. cbn [disk]. by rewrite lookup_empty.
Defined.

(** C3, as stated, fails: after the first sync of the configured pair
    on a fresh machine, the one remote stored in the shadow has the
    source URL, not the destination URL. *)
Lemma stored_remote_is_not_rewired :
  ~ (forall rsc so src dst env w w',
       getRepositoryAccess_range (Repositories rsc) (SourceName so) = Val (Some src) ->
       getRepositoryAccess_range (Repositories rsc) (DestinationName so) = Val (Some dst) ->
       doRepositoriesSync rsc (Some so) env w = (Val None, w') ->
       exists name rc,
         Remotes (Git.storage_at w' (shadow_of rsc src)) = {[name := rc]}
         /\ URLs rc = [RepoUrl dst]).
Proof.
  intros H.
  destruct (H Fixtures.rsc Fixtures.pair Fixtures.alpha Fixtures.beta Fixtures.env_ok
              Fixtures.w0 _ eq_refl eq_refl first_sync_succeeds)
    as (name & rc & HR & Hurls).
  rewrite first_sync_stored in HR.
  assert (({[name := rc]} : gmap string RemoteConfig) !! DefaultRemoteName
          = Some (sourceRemote (RepoUrl Fixtures.alpha))) as Hl
    by (rewrite <- HR; apply lookup_singleton_eq).
  apply lookup_singleton_Some in Hl. destruct Hl as [_ ->].
  discriminate Hurls.
Qed.

(** ** The rewrite of the URL is not persisted *)
Lemma kept_fetches p R0 t0 w rc :
  kept p R0 t0 w -> R0 !! DefaultRemoteName = Some rc ->
  exists st t,
    disk w !! p = Some st /\ Remotes st = R0
    /\ trace w = (t0 ++ t)%list
    /\ forall urls specs, In (EvFetch p urls specs) t -> urls = URLs rc /\ specs = Fetch rc.
Proof.
  intros [(st & Hst & HR) (t & Ht & Hf)] Hrc. exists st, t.
  do 3 (split; [done|]). intros urls specs Hin.
  rewrite Forall_forall in Hf. apply list_elem_of_In in Hin.
  destruct (Hf _ Hin eq_refl) as (rc' & Hrc' & -> & ->).
  rewrite Hrc in Hrc'. by injection Hrc' as <-.
Qed.

Lemma kept_start p st w :
  disk w !! p = Some st -> kept p (Remotes st) (trace w) w.
Proof.
  intros Hst. split; [eauto|]. exists []. split; [by rewrite app_nil_r|constructor].
Qed.

(** C10.  The push step leaves the local disk as it was, so the URL it
    puts into the remote is never stored; and once a sync has created a
    shadow, the shadow keeps its one remote with the source URL through
    every later run of the program, whatever the configuration and the
    environment of those runs, and every fetch into it runs on the
    source URL alone. *)
Theorem rewrite_is_not_persisted :
  (forall r url keys env w,
     disk (repositoryShadowPushToNewOrigin r url keys env w).2 = disk w)
  /\ (forall rsc so src env w w1 l,
        getRepositoryAccess_range (Repositories rsc) (SourceName so) = Val (Some src) ->
        disk w !! shadow_of rsc src = None ->
        doRepositoriesSync rsc (Some so) env w = (Val None, w1) ->
        exists st t,
          disk (runs l w1) !! shadow_of rsc src = Some st
          /\ Remotes st = {[DefaultRemoteName := sourceRemote (RepoUrl src)]}
          /\ trace (runs l w1) = (trace w1 ++ t)%list
          /\ forall urls specs, In (EvFetch (shadow_of rsc src) urls specs) t ->
                                urls = [RepoUrl src] /\ specs = [mirrorRefSpec]).
Proof.
  split; [apply Push_disk|].
  intros rsc so src env w w1 l Hs Hnone H.
  apply sync_success_inv in H.
  destruct H as (src' & dst & w4 & Hs' & Hd & Hstep & Hpush).
  rewrite Hs in Hs'. injection Hs' as <-.
  pose proof (Push_disk (Some {| Storer := shadow_of rsc src |}) (RepoUrl dst)
                (keys_of dst) env (log (key_event dst) w4)) as Hdisk.
  rewrite Hpush in Hdisk. cbn [snd log disk] in Hdisk.
  unfold checked in Hstep. rewrite Hnone in Hstep. cbn [initOrUpdate] in Hstep.
  apply Init_inv in Hstep. destruct Hstep as [[e He]|[_ Hstep]]; [discriminate|].
  destruct Hstep as (_ & rrefs & _ & _ & _ & Hd4 & _ & _).
  assert (disk w1 !! shadow_of rsc src
          = Some {| Remotes := {[DefaultRemoteName := sourceRemote (RepoUrl src)]};
                    References := Git.mirror_refs rrefs ∪ ∅ |}) as Hst
    by (by rewrite Hdisk, Hd4, lookup_insert_eq).
  pose proof (kept_runs _ _ _ l w1 (kept_start _ _ _ Hst)) as Hk.
  cbn [Remotes] in Hk.
  eapply kept_fetches in Hk; [|apply lookup_singleton_eq].
  destruct Hk as (st & t & H1 & H2 & H3 & H4). exists st, t. eauto.
Qed.

Lemma rewrite_is_not_persisted_witness :
  let w1 := (doRepositoriesSync Fixtures.rsc (Some Fixtures.pair) Fixtures.env_ok
               Fixtures.w0).2 in
  exists st t,
    disk (runs [(Fixtures.env_ok, Fixtures.rsc)] w1)
      !! shadow_of Fixtures.rsc Fixtures.alpha = Some st
    /\ Remotes st = {[DefaultRemoteName := sourceRemote (RepoUrl Fixtures.alpha)]}
    /\ trace (runs [(Fixtures.env_ok, Fixtures.rsc)] w1) = (trace w1 ++ t)%list
    /\ forall urls specs,
         In (EvFetch (shadow_of Fixtures.rsc Fixtures.alpha) urls specs) t ->
         urls = [RepoUrl Fixtures.alpha] /\ specs = [mirrorRefSpec].
Proof.
  intros w1.
  exact (proj2 rewrite_is_not_persisted Fixtures.rsc Fixtures.pair Fixtures.alpha
           Fixtures.env_ok Fixtures.w0 w1 [(Fixtures.env_ok, Fixtures.rsc)]
           eq_refl (lookup_empty _) first_sync_succeeds).
Defined.

(** ** Idempotence of the initialize-or-update *)
Lemma mirror_merge_idem (src dst : gmap string string) :
  Git.mirror_merge src (Git.mirror_merge src dst).2
  = (Some NoErrAlreadyUpToDate, (Git.mirror_merge src dst).2).
Proof.
  unfold Git.mirror_merge. cbn [snd].
  rewrite (assoc_L (∪)), (idemp_L (∪)).
  by destruct (decide _).
Qed.

(** Once every reference has been written, an update from the same
    source is up to date, whatever would be refused. *)
Lemma mirror_update_idem refused reached (src dst : gmap string string) :
  Git.mirror_update refused reached src (Git.mirror_merge src dst).2
  = (Some NoErrAlreadyUpToDate, (Git.mirror_merge src dst).2).
Proof.
  rewrite mirror_update_accepted; [apply mirror_merge_idem|].
  intros n h. by rewrite pending_merged, lookup_empty.
Qed.

Lemma blocked_none (refs : gmap string string) n :
  (forall m, is_Some (refs !! m) -> Git.dir_of n m = false /\ Git.dir_of m n = false) ->
  Git.blocked refs n = None.
Proof.
  intros H. unfold Git.blocked.
  rewrite !bool_decide_eq_false_2; [done|..]; intros (m & h & Hm & Hdir);
    destruct (H m (mk_is_Some _ _ Hm)); congruence.
Qed.

(** The update, run forward. *)
Lemma Update_fwd r path keys env w st rc url urls rrefs :
  open_err env path = None ->
  disk w !! path = Some st ->
  config_read_err env path = None ->
  Remotes st !! DefaultRemoteName = Some rc ->
  URLs rc = url :: urls ->
  transport_err env url keys = None ->
  upstream w !! url = Some rrefs -> rrefs <> ∅ ->
  repositoryShadowUpdate r path keys env w =
  let upd := Git.fetch_update env path rc (updateOptions keys) rrefs (References st) in
  (Val match upd.1 with
       | Some e => if decide (e = NoErrAlreadyUpToDate)
                   then (Some {| Storer := path |}, None) else (None, Some e)
       | None => (Some {| Storer := path |}, None)
       end,
   with_disk (<[path := {| Remotes := Remotes st; References := upd.2 |}]> (disk w))
     (log (EvFetch path (URLs rc) (Fetch rc)) (log (EvPlainOpen path) w))).
Proof.
  intros Ho Hd Hc Hrc Hurls Ht Hu Hne.
  unfold repositoryShadowUpdate. rewrite bind_run, PlainOpen_run, Ho, Hd.
  cbv beta iota. unfold Git.Repository_FetchContext. cbn [fo_RemoteName updateOptions].
  change (if String.eqb DefaultRemoteName "" then _ else _) with DefaultRemoteName.
  rewrite !bind_run, Remote_run. cbn [Storer]. rewrite Hc.
  rewrite (storage_at_lookup (log (EvPlainOpen path) w) path st) by exact Hd.
  rewrite Hrc. cbv beta iota. rewrite Remote_Fetch_run. cbv zeta.
  cbn [r_c r_s]. change (fo_Auth (updateOptions keys)) with keys.
  change (fo_RefSpecs (updateOptions keys)) with (@nil string). cbv iota.
  rewrite Hurls, Ht. cbn [upstream log]. rewrite Hu.
  destruct (decide (rrefs = ∅)); [done|].
  rewrite (storage_at_lookup (log (EvPlainOpen path) w) path st) by exact Hd.
  destruct (Git.fetch_update _ _ _ _ _ _).1 as [e|]; [|reflexivity].
  by destruct (decide (e = NoErrAlreadyUpToDate)).
Qed.

(** The initialization, run forward. *)
Lemma Init_fwd path url keys env w rrefs :
  init_err env path = None ->
  disk w !! path = None ->
  config_read_err env path = None ->
  config_write_err env path = None ->
  transport_err env url keys = None ->
  upstream w !! url = Some rrefs -> rrefs <> ∅ ->
  exists w',
    repositoryShadowInit path url keys env w = (Val (Some {| Storer := path |}, None), w').
Proof.
  intros Hi Hd Hc Hcw Ht Hu Hne.
  unfold repositoryShadowInit. rewrite bind_run, PlainInit_run, Hi, Hd.
  cbv beta iota. rewrite bind_run, CreateRemote_run, Validate_sourceRemote.
  cbv zeta. cbn [Storer]. rewrite Hc.
  rewrite (storage_at_insert _ (disk w) path {| Remotes := ∅; References := ∅ |})
    by reflexivity.
  cbn [Remotes References]. rewrite lookup_empty, Hcw.
  cbv beta iota. rewrite bind_run, Remote_Fetch_run.
  cbv zeta. cbn [r_c r_s sourceRemote URLs Fetch initOptions fo_RefSpecs fo_Auth Name].
  rewrite Ht. cbn [upstream with_disk log]. rewrite Hu.
  destruct (decide (rrefs = ∅)); [done|].
  erewrite storage_at_insert by reflexivity. cbn [Remotes References].
  rewrite fetch_update_mirror, mirror_update_fresh by reflexivity.
  destruct (mirror_merge_tolerated rrefs ∅) as [E|E]; rewrite E; cbn; eauto.
Qed.

(** What the environment must have granted to a step that succeeded. *)
Lemma Update_success_env r path keys env w rr w' :
  repositoryShadowUpdate r path keys env w = (Val (Some rr, None), w') ->
  open_err env path = None /\ config_read_err env path = None.
Proof.
  unfold repositoryShadowUpdate. rewrite bind_run, PlainOpen_run.
  destruct (open_err env path); [discriminate|].
  destruct (disk w !! path) as [st|]; [|discriminate].
  cbv beta iota. unfold Git.Repository_FetchContext. cbn [fo_RemoteName updateOptions].
  change (if String.eqb DefaultRemoteName "" then _ else _) with DefaultRemoteName.
  rewrite !bind_run, Remote_run. cbn [Storer].
  destruct (config_read_err env path); [discriminate|]. done.
Qed.

Lemma Init_success_env path url keys env w rr w' :
  repositoryShadowInit path url keys env w = (Val (Some rr, None), w') ->
  config_read_err env path = None.
Proof.
  unfold repositoryShadowInit. rewrite bind_run, PlainInit_run.
  destruct (init_err env path); [discriminate|].
  destruct (disk w !! path); [discriminate|].
  cbv beta iota. rewrite bind_run, CreateRemote_run, Validate_sourceRemote.
  cbv zeta. cbn [Storer].
  destruct (config_read_err env path); [discriminate|]. done.
Qed.

Lemma ensureUpToDate_run path url keys env w :
  ensureUpToDate path url keys env w =
  match open_err env path with
  | Some msg => (Val (None, Some (ErrOther msg)), log (EvPlainOpen path) w)
  | None => initOrUpdate (checked w path) path url keys env (log (EvPlainOpen path) w)
  end.
Proof.
  unfold ensureUpToDate, checked. rewrite bind_run, CheckInit_run.
  destruct (open_err env path); [reflexivity|]. by destruct (disk w !! path).
Qed.



(** Where no call fails, the shadow is ready and no name is in the way,
    the initialize-or-update succeeds. *)
Lemma ensureUpToDate_succeeds path url keys env w :
  no_failures env path -> shadow_ready w path url -> unobstructed w path ->
  exists w1,
    ensureUpToDate path url keys env w = (Val (Some {| Storer := path |}, None), w1).
Proof.
  intros (Ho & Hi & Hc & Hcw & Ht) Hready Hfree. rewrite ensureUpToDate_run, Ho.
  unfold shadow_ready in Hready. unfold checked.
  destruct (disk w !! path) as [st|] eqn:Hd; cbn [initOrUpdate].
  - destruct Hready as (rc & u & us & rrefs & Hrc & Hf & Hurls & Hu & Hne).
    rewrite (Update_fwd _ path keys env (log (EvPlainOpen path) w) st rc u us rrefs)
      by done.
    cbv zeta. rewrite fetch_update_mirror by done.
    rewrite mirror_update_accepted.
    2: { intros n h Hn. apply blocked_none. intros m Hm.
         apply (Hfree st rc u us rrefs n m Hd Hrc Hurls Hu); [|done].
         apply map_lookup_filter_Some in Hn. destruct Hn as [Hn _]. eauto. }
    destruct (mirror_merge_tolerated rrefs (References st)) as [E|E]; rewrite E.
    + eauto.
    + destruct (decide (NoErrAlreadyUpToDate = NoErrAlreadyUpToDate)); [eauto|done].
  - destruct Hready as (rrefs & Hu & Hne).
    apply (Init_fwd path url keys env (log (EvPlainOpen path) w) rrefs); done.
Qed.





(** * Further properties of the code *)

(** ** The lookup of a repository by name *)

(** X1.  [getRepositoryAccess] returns the first descriptor that bears the
    name, whatever follows it; it returns [nil] exactly when the list
    holds no [nil] element and no descriptor of that name; and it
    panics exactly when a [nil] element comes before any match. *)
Theorem getRepositoryAccess_first_match l name :
  (forall e,
     getRepositoryAccess_range l name = Val (Some e) <->
     exists l1 l2, l = (map Some l1 ++ Some e :: l2)%list
                   /\ RepoName e = name
                   /\ Forall (fun x => RepoName x <> name) l1)
  /\ (getRepositoryAccess_range l name = Val None <->
      exists l1, l = map Some l1 /\ Forall (fun x => RepoName x <> name) l1)
  /\ (getRepositoryAccess_range l name = Panic <->
      exists l1 l2, l = (map Some l1 ++ None :: l2)%list
                    /\ Forall (fun x => RepoName x <> name) l1).
Proof.
  induction l as [|[x|] l IH]; cbn [getRepositoryAccess_range].
  - split; [|split].
    + intros e. split; [discriminate|]. intros (l1 & l2 & H & _). by destruct l1.
    + split; [|done]. intros _. by exists [].
    + split; [discriminate|]. intros (l1 & l2 & H & _). by destruct l1.
  - destruct IH as (IH1 & IH2 & IH3).
    destruct (String.eqb (RepoName x) name) eqn:E.
    + apply String.eqb_eq in E. split; [|split].
      * intros e. split.
        -- intros [= <-]. exists [], l. by repeat split.
        -- intros (l1 & l2 & H & Hn & Hf). destruct l1 as [|y l1]; cbn in H.
           ++ by injection H as -> _.
           ++ injection H as <- _. by inversion Hf.
      * split; [discriminate|]. intros (l1 & H & Hf). destruct l1 as [|y l1]; [done|].
        cbn in H. injection H as <- _. by inversion Hf.
      * split; [discriminate|]. intros (l1 & l2 & H & Hf). destruct l1 as [|y l1]; [done|].
        cbn in H. injection H as <- _. by inversion Hf.
    + apply String.eqb_neq in E. split; [|split].
      * intros e. rewrite IH1. split.
        -- intros (l1 & l2 & -> & Hn & Hf). exists (x :: l1), l2.
           repeat split; [done|]. by constructor.
        -- intros (l1 & l2 & H & Hn & Hf). destruct l1 as [|y l1]; cbn in H.
           ++ injection H as -> _. done.
           ++ injection H as -> ->. exists l1, l2. repeat split; [done|]. by inversion Hf.
      * rewrite IH2. split.
        -- intros (l1 & -> & Hf). exists (x :: l1). split; [done|]. by constructor.
        -- intros (l1 & H & Hf). destruct l1 as [|y l1]; [done|].
           cbn in H. injection H as -> ->. exists l1. split; [done|]. by inversion Hf.
      * rewrite IH3. split.
        -- intros (l1 & l2 & -> & Hf). exists (x :: l1), l2. split; [done|]. by constructor.
        -- intros (l1 & l2 & H & Hf). destruct l1 as [|y l1]; [done|].
           cbn in H. injection H as -> ->. exists l1, l2. split; [done|]. by inversion Hf.
  - split; [|split].
    + intros e. split; [discriminate|].
      intros (l1 & l2 & H & _). by destruct l1.
    + split; [discriminate|]. intros (l1 & H & _). by destruct l1.
    + split; [|done]. intros _. exists [], l. by split.
Qed.

Lemma getRepositoryAccess_first_match_witness :
  getRepositoryAccess_range [Some Fixtures.alpha; Some Fixtures.beta; None] "beta"
  = Val (Some Fixtures.beta).
Proof.
  apply (proj1 (getRepositoryAccess_first_match
                  [Some Fixtures.alpha; Some Fixtures.beta; None] "beta") Fixtures.beta).
  exists [Fixtures.alpha], [None]. split; [reflexivity|]. split; [reflexivity|].
  constructor; [|constructor]. vm_compute. discriminate.
Defined.

(** ** The credential of a repository *)

(** X2.  [repositorySshKeyRead] never panics and does nothing but read the
    key file, as user [git]: it returns either the error of that read,
    with a [nil] credential, or the credential of the file, in which
    the check of the host key is switched off exactly when asked. *)
Theorem repositorySshKeyRead_result f pw sk env w :
  exists res,
    repositorySshKeyRead f pw sk env w = (Val res, log (EvKeyRead "git" f pw) w)
    /\ ((exists msg, key_err env "git" f pw = Some msg
                     /\ res = (None, Some (ErrOther msg)))
        \/ (exists k, key_err env "git" f pw = None
                      /\ res = (Some k, None)
                      /\ User k = "git" /\ PemFile k = f /\ Password k = pw
                      /\ InsecureIgnoreHostKey k = sk)).
Proof.
  rewrite KeyRead_run. eexists. split; [reflexivity|].
  destruct (key_err env "git" f pw) as [msg|]; [left; eauto|].
  right. eexists. repeat split.
Qed.

(** ** The loop over the pairs *)

(** X3.  The loop of [main] over two lists of pairs in a row is the loop over
    the first, followed, only if that one ended without error or panic,
    by the loop over the second from the world the first one left. *)
Theorem main_range_app rsc l1 l2 env w :
  main_range rsc (l1 ++ l2) env w =
  match main_range rsc l1 env w with
  | (Val None, w') => main_range rsc l2 env w'
  | stopped => stopped
  end.
Proof.
  revert w. induction l1 as [|e l1 IH]; intros w; cbn [app main_range].
  - reflexivity.
  - rewrite !bind_run.
    destruct (doRepositoriesSync rsc e env w) as [[[err|]|] w1]; [reflexivity| |reflexivity].
    apply IH.
Qed.

(** ** A destination key that cannot be read *)

(** X4.  When the key of the destination cannot be read, the sync returns
    the error of that read whatever the initialize-or-update step
    returned; the read is its last call, so nothing is pushed, and the
    disk and the upstream stay as the step left them. *)
Theorem destination_key_failure_stops_before_push rsc so src dst env w r err w4 msg :
  getRepositoryAccess_range (Repositories rsc) (SourceName so) = Val (Some src) ->
  getRepositoryAccess_range (Repositories rsc) (DestinationName so) = Val (Some dst) ->
  mkdir_err env (shadow_of rsc src) 644 = None ->
  key_failure env src = None ->
  open_err env (shadow_of rsc src) = None ->
  initOrUpdate (checked w (shadow_of rsc src)) (shadow_of rsc src) (RepoUrl src)
    (keys_of src) env
    (log (EvPlainOpen (shadow_of rsc src))
       (log (key_event src) (log (EvMkdirAll (shadow_of rsc src) 644) w)))
    = (Val (r, err), w4) ->
  key_failure env dst = Some msg ->
  exists w',
    doRepositoriesSync rsc (Some so) env w = (Val (Some (ErrOther msg)), w')
    /\ trace w' = (trace w4 ++ [key_event dst])%list
    /\ disk w' = disk w4
    /\ upstream w' = upstream w4.
Proof.
  intros Hs Hd Hm Hk Ho Hstep Hkd. rewrite (sync_run _ _ _ _ _ _ Hs Hd). cbv zeta.
  rewrite Hm, Hk, Ho, Hstep, pushStage_run, Hkd. eexists. repeat split.
Qed.

Lemma destination_key_failure_stops_before_push_witness :
  let path := shadow_of Fixtures.rsc Fixtures.alpha in
  let w4 := (initOrUpdate None path (RepoUrl Fixtures.alpha) (keys_of Fixtures.alpha)
               env_no_beta_key
               (log (EvPlainOpen path)
                  (log (key_event Fixtures.alpha)
                     (log (EvMkdirAll path 644) Fixtures.w0)))).2 in
  exists w',
    doRepositoriesSync Fixtures.rsc (Some Fixtures.pair) env_no_beta_key Fixtures.w0
    = (Val (Some (ErrOther "open beta.pem: no such file or directory")), w')
    /\ trace w' = (trace w4 ++ [key_event Fixtures.beta])%list
    /\ disk w' = disk w4
    /\ upstream w' = upstream w4.
Proof.
  intros path w4.
  apply (destination_key_failure_stops_before_push Fixtures.rsc Fixtures.pair
           Fixtures.alpha Fixtures.beta env_no_beta_key Fixtures.w0
           (Some {| Storer := path |}) None w4
           "open beta.pem: no such file or directory");
    [reflexivity|reflexivity|reflexivity|reflexivity|reflexivity
    |vm_compute; reflexivity|reflexivity].
Defined.

(** ** Repositories that are already there *)

(** X5.  Through any number of runs of the program, in any environments and
    with any configurations, a repository that is on the disk stays on
    the disk and keeps the remotes it stores, and every fetch into it
    runs on the URL list and the refspecs that it stores for [origin],
    whatever source URL the configurations give. *)
Theorem existing_repository_is_kept p st w l :
  disk w !! p = Some st ->
  exists st' t,
    disk (runs l w) !! p = Some st'
    /\ Remotes st' = Remotes st
    /\ trace (runs l w) = (trace w ++ t)%list
    /\ forall urls specs,
         In (EvFetch p urls specs) t ->
         exists rc, Remotes st !! DefaultRemoteName = Some rc
                    /\ urls = URLs rc /\ specs = Fetch rc.
Proof.
  intros Hst.
  destruct (kept_runs _ _ _ l w (kept_start _ _ _ Hst))
    as [(st' & Hst' & HR) (t & Ht & HF)].
  exists st', t. split; [done|]. split; [done|]. split; [done|].
  intros urls specs Hin. rewrite Forall_forall in HF.
  exact (HF _ (proj2 (list_elem_of_In _ _) Hin) eq_refl).
Qed.

Lemma existing_repository_is_kept_witness :
  let w1 := (doRepositoriesSync Fixtures.rsc (Some Fixtures.pair) Fixtures.env_ok
               Fixtures.w0).2 in
  let l := [(Fixtures.env_offline, Fixtures.rsc); (Fixtures.env_ok, Fixtures.rsc_no_dst)] in
  exists st',
    disk (runs l w1) !! Fixtures.shadow = Some st'
    /\ Remotes st' = {[DefaultRemoteName := sourceRemote (RepoUrl Fixtures.alpha)]}.
Proof.
  intros w1 l.
  assert (disk w1 !! Fixtures.shadow
          = Some {| Remotes := {[DefaultRemoteName := sourceRemote (RepoUrl Fixtures.alpha)]};
                    References := References (Git.storage_at w1 Fixtures.shadow) |}) as Hst
    by (vm_compute; reflexivity).
  destruct (existing_repository_is_kept _ _ _ l Hst) as (st' & t & H1 & H2 & _).
  exists st'. split; [exact H1|exact H2].
Defined.

(** ** An initialization that cannot fetch *)

(** When the directory and the remote can be made but the connection to
    the source fails, the initialization returns the error of the
    connection and leaves a repository behind: no reference, one
    remote, [origin], with the source URL. *)
Lemma Init_offline path url keys env w msg :
  init_err env path = None ->
  disk w !! path = None ->
  config_read_err env path = None ->
  config_write_err env path = None ->
  transport_err env url keys = Some msg ->
  exists w',
    repositoryShadowInit path url keys env w = (Val (None, Some (ErrOther msg)), w')
    /\ disk w' = <[path := {| Remotes := {[DefaultRemoteName := sourceRemote url]};
                              References := ∅ |}]> (disk w)
    /\ upstream w' = upstream w.
Proof.
  intros Hi Hd Hc Hcw Ht.
  unfold repositoryShadowInit. rewrite bind_run, PlainInit_run, Hi, Hd.
  cbv beta iota. rewrite bind_run, CreateRemote_run, Validate_sourceRemote.
  cbv zeta. cbn [Storer]. rewrite Hc.
  rewrite (storage_at_insert _ (disk w) path {| Remotes := ∅; References := ∅ |})
    by reflexivity.
  cbn [Remotes References]. rewrite lookup_empty, Hcw.
  cbv beta iota. rewrite bind_run, Remote_Fetch_run.
  cbv zeta. cbn [r_c r_s sourceRemote URLs Fetch initOptions fo_RefSpecs fo_Auth Name].
  rewrite Ht. cbv beta iota.
  destruct (decide (ErrOther msg = NoErrAlreadyUpToDate)); [discriminate|].
  eexists. split; [reflexivity|]. cbn. by rewrite insert_insert_eq, insert_empty.
Qed.

(** X6.  When the directory and the remote can be made but the
    connection to the source fails, the initialization returns the error
    of the connection and leaves a repository behind; the next
    initialize-or-update finds it: where no call fails and the source
    has references, it takes the update branch and succeeds. *)
Theorem interrupted_init_is_resumed path url keys env w msg keys' env' :
  init_err env path = None ->
  disk w !! path = None ->
  config_read_err env path = None ->
  config_write_err env path = None ->
  transport_err env url keys = Some msg ->
  no_failures env' path ->
  (exists rrefs, upstream w !! url = Some rrefs /\ rrefs <> ∅) ->
  exists w1 w2,
    repositoryShadowInit path url keys env w = (Val (None, Some (ErrOther msg)), w1)
    /\ checked w1 path = Some {| Storer := path |}
    /\ ensureUpToDate path url keys' env' w1
       = (Val (Some {| Storer := path |}, None), w2).
Proof.
  intros Hi Hd Hc Hcw Ht Henv (rrefs & Hu & Hne).
  destruct (Init_offline path url keys env w msg Hi Hd Hc Hcw Ht) as (w1 & Hrun & Hd1 & Hu1).
  assert (disk w1 !! path
          = Some {| Remotes := {[DefaultRemoteName := sourceRemote url]};
                    References := ∅ |}) as Hl by (by rewrite Hd1, lookup_insert_eq).
  destruct (ensureUpToDate_succeeds path url keys' env' w1 Henv) as [w2 H2].
  - unfold shadow_ready. rewrite Hl. exists (sourceRemote url), url, [], rrefs.
    cbn [Remotes]. rewrite lookup_singleton_eq, Hu1. by repeat split.
  - intros st rc u us rrefs' n m Hst _ _ _ _ [h Hm]. rewrite Hl in Hst.
    injection Hst as <-. cbn [References] in Hm. by rewrite lookup_empty in Hm.
  - exists w1, w2. split; [done|]. split; [|done]. unfold checked. by rewrite Hl.
Qed.

Lemma interrupted_init_is_resumed_witness :
  exists w1 w2,
    repositoryShadowInit Fixtures.shadow (RepoUrl Fixtures.alpha) Fixtures.keys_alpha
      Fixtures.env_offline Fixtures.w0
    = (Val (None, Some (ErrOther "dial tcp: connection refused")), w1)
    /\ checked w1 Fixtures.shadow = Some {| Storer := Fixtures.shadow |}
    /\ ensureUpToDate Fixtures.shadow (RepoUrl Fixtures.alpha) Fixtures.keys_alpha
         Fixtures.env_ok w1
       = (Val (Some {| Storer := Fixtures.shadow |}, None), w2).
Proof.
  apply (interrupted_init_is_resumed Fixtures.shadow (RepoUrl Fixtures.alpha)
           Fixtures.keys_alpha Fixtures.env_offline Fixtures.w0
           "dial tcp: connection refused" Fixtures.keys_alpha Fixtures.env_ok);
    [reflexivity| |reflexivity|reflexivity|reflexivity| |].
  - unfold Fixtures.w0. cbn [disk]. apply lookup_empty.
  - by repeat split.
  - exists {[ "HEAD" := "1f3a"; "refs/heads/main" := "1f3a";
              "refs/heads/feature-x" := "77c0" ]}.
    split; [vm_compute; reflexivity|]. intros E.
    apply (f_equal (fun m : gmap string string => m !! "HEAD")) in E.
    vm_compute in E. discriminate E.
Defined.

(** ** What a sync does not touch

    The invariant: the directory [p] holds what it held, and the
    repository at the URL [u] has the references it had. *)
Section Footprint.
Context (p u : string) (od : option Storage) (ou : option (gmap string string)).
Local Abbreviation J := (fun w : World => disk w !! p = od /\ upstream w !! u = ou).

Lemma away_emit e : hoare J (emit e) (fun _ => True).
Proof. intros env w H. split; done. Qed.

Lemma away_set_disk d : d !! p = od -> hoare J (set_disk d) (fun _ => True).
Proof. intros Hd env w [_ Hu]. split; done. Qed.

Lemma away_set_upstream v : v !! u = ou -> hoare J (set_upstream v) (fun _ => True).
Proof. intros Hv env w [Hd _]. split; done. Qed.

Lemma away_lookup rsc name :
  hoare J (getRepositoryAccess rsc name)
    (fun a => getRepositoryAccess_range (Repositories rsc) name = Val a).
Proof. intros env w H. split; [done|]. cbn. done. Qed.

Lemma away_CreateDir url b : hoare J (repositoryShadowCreateDir url b)
    (fun res => res.2 = None -> res.1 = sourceClonePath_of url b).
Proof.
  intros env w H. rewrite repositoryShadowCreateDir_run. split; [done|].
  cbn [fst]. destruct (mkdir_err _ _ _); by intros a [= <-].
Qed.

Lemma away_KeyRead f pw sk : hoare J (repositorySshKeyRead f pw sk) (fun _ => True).
Proof. intros env w H. rewrite KeyRead_run. split; done. Qed.

Lemma away_PlainOpen path :
  hoare J (Git.PlainOpen path) (fun res => forall r, res.1 = Some r -> Storer r = path).
Proof.
  intros env w H. rewrite PlainOpen_run. split; [done|]. cbn.
  intros a [= <-] r. destruct (open_err env path); [done|].
  destruct (disk w !! path); [|done]. by intros [= <-].
Qed.

Lemma away_CheckInit path :
  hoare J (repositoryShadowCheckInit path) (fun _ => True).
Proof. intros env w H. rewrite CheckInit_run. split; done. Qed.

Lemma away_PlainInit path bare :
  path <> p ->
  hoare J (Git.PlainInit path bare) (fun res => forall r, res.1 = Some r -> Storer r = path).
Proof.
  intros Hne env w [Hd Hu]. rewrite PlainInit_run.
  destruct (init_err env path); [split; [done|by intros a [= <-]]|].
  destruct (disk w !! path); [split; [done|by intros a [= <-]]|].
  split.
  - split; [|done]. cbn. by rewrite lookup_insert_ne.
  - intros a [= <-] r [= <-]. done.
Qed.

Lemma away_Remote r name :
  hoare J (Git.Repository_Remote r name)
    (fun res => forall rm, res.1 = Some rm -> exists rr, r = Some rr /\ r_s rm = Storer rr).
Proof.
  destruct r as [rr|]; [|apply hoare_panic].
  intros env w H. rewrite Remote_run. split; [done|]. cbn.
  intros a [= <-] rm. destruct (config_read_err env (Storer rr)); [done|].
  destruct (Remotes _ !! name); [|done]. intros [= <-]. eauto.
Qed.

Lemma away_CreateRemote r rc :
  (forall rr, r = Some rr -> Storer rr <> p) ->
  hoare J (Git.Repository_CreateRemote r rc)
    (fun res => forall rm, res.1 = Some rm -> r_s rm <> p).
Proof.
  intros Hr. destruct r as [rr|]; [|apply hoare_panic].
  specialize (Hr rr eq_refl). intros env w [Hd Hu]. rewrite CreateRemote_run. cbv zeta.
  destruct (Git.RemoteConfig_Validate rc); [split; [done|by intros a [= <-]]|].
  destruct (config_read_err env (Storer rr)); [split; [done|by intros a [= <-]]|].
  destruct (Remotes _ !! Name rc); [split; [done|by intros a [= <-]]|].
  destruct (config_write_err env (Storer rr)); [split; [done|by intros a [= <-]]|].
  split.
  - split; [|done]. cbn. by rewrite lookup_insert_ne.
  - intros a [= <-] rm [= <-]. done.
Qed.

Lemma away_Remote_Fetch rem o :
  (forall rm, rem = Some rm -> r_s rm <> p) ->
  hoare J (Git.Remote_FetchContext rem o) (fun _ => True).
Proof.
  intros Hr. destruct rem as [rm|]; [|apply hoare_panic].
  specialize (Hr rm eq_refl). intros env w [Hd Hu]. rewrite Remote_Fetch_run. cbv zeta.
  destruct (URLs (r_c rm)) as [|url urls]; [done|].
  destruct (transport_err _ _ _); [done|].
  destruct (upstream w !! url) as [rrefs|]; [|done].
  destruct (decide (rrefs = ∅)); [done|].
  split; [|done]. split; [|done]. cbn. by rewrite lookup_insert_ne.
Qed.

Lemma away_Remote_Push rem o :
  (forall rm, rem = Some rm -> head (URLs (r_c rm)) <> Some u) ->
  hoare J (Git.Remote_PushContext rem o) (fun _ => True).
Proof.
  intros Hr. destruct rem as [rm|]; [|apply hoare_panic].
  specialize (Hr rm eq_refl). intros env w [Hd Hu]. rewrite Remote_Push_run. cbv zeta.
  destruct (negb _); [done|].
  destruct (URLs (r_c rm)) as [|url urls]; [done|].
  destruct (transport_err _ _ _); [done|].
  destruct (upstream w !! url); [|done].
  split; [|done]. split; [done|]. cbn. rewrite lookup_insert_ne; [done|].
  intros ->. by apply Hr.
Qed.

Lemma away_Init path url keys :
  path <> p -> hoare J (repositoryShadowInit path url keys) (fun _ => True).
Proof.
  intros Hne. unfold repositoryShadowInit.
  eapply hoare_bind; [by apply away_PlainInit|intros [r err] Hr]. cbn [fst snd] in Hr.
  destruct err; [by apply hoare_ret|].
  eapply hoare_bind.
  { apply away_CreateRemote. intros rr ->. by rewrite (Hr rr eq_refl). }
  intros [rem err] Hrem. cbn [fst snd] in Hrem. destruct err; [by apply hoare_ret|].
  eapply hoare_bind with (Q := fun _ => True); [by apply away_Remote_Fetch|].
  intros err _. destruct err as [e|]; [|by apply hoare_ret].
  destruct (decide _); by apply hoare_ret.
Qed.

Lemma away_Update r path keys :
  path <> p -> hoare J (repositoryShadowUpdate r path keys) (fun _ => True).
Proof.
  intros Hne. unfold repositoryShadowUpdate.
  eapply hoare_bind; [apply away_PlainOpen|intros [r' err] Hr]. cbn [fst snd] in Hr.
  destruct err; [by apply hoare_ret|].
  eapply hoare_bind with (Q := fun _ => True).
  { unfold Git.Repository_FetchContext.
    eapply hoare_bind; [apply away_Remote|intros [rem err] Hrem]. cbn [fst snd] in Hrem.
    destruct err; [by apply hoare_ret|].
    apply away_Remote_Fetch. intros rm ->.
    destruct (Hrem rm eq_refl) as (rr & -> & ->). by rewrite (Hr rr eq_refl). }
  intros err _. destruct err as [e|]; [|by apply hoare_ret].
  destruct (decide _); by apply hoare_ret.
Qed.

Lemma away_Push r url keys :
  url <> u -> hoare J (repositoryShadowPushToNewOrigin r url keys) (fun _ => True).
Proof.
  intros Hne. unfold repositoryShadowPushToNewOrigin.
  eapply hoare_bind; [apply away_Remote|intros [rem err] _].
  eapply hoare_bind with (Q := fun _ => True).
  { destruct err as [e|]; [|by apply hoare_ret].
    destruct (decide _); by apply hoare_ret. }
  intros ret _. destruct ret; [by apply hoare_ret|].
  eapply hoare_bind with (Q := fun _ => True); [by apply hoare_deref|intros rd _].
  eapply hoare_bind with (Q := fun _ => True).
  { apply away_Remote_Push. intros rm [= <-]. cbn. congruence. }
  intros err' _. destruct err' as [e|]; [|by apply hoare_ret].
  destruct (decide _); by apply hoare_ret.
Qed.

Lemma away_doRepositoriesSync rsc so :
  (forall src, getRepositoryAccess_range (Repositories rsc) (SourceName so) = Val (Some src) ->
               shadow_of rsc src <> p) ->
  (forall dst, getRepositoryAccess_range (Repositories rsc) (DestinationName so)
               = Val (Some dst) -> RepoUrl dst <> u) ->
  hoare J (doRepositoriesSync rsc (Some so)) (fun _ => True).
Proof.
  intros Hp Hu. unfold doRepositoriesSync. cbn [deref].
  eapply hoare_bind with (Q := fun s => s = so); [by apply hoare_ret|intros ? ->].
  eapply hoare_bind; [apply away_lookup|intros src Hs].
  eapply hoare_bind; [apply away_lookup|intros dst Hd].
  eapply hoare_bind with (Q := fun s => src = Some s); [by apply hoare_deref|].
  intros s ->. specialize (Hp s Hs). unfold shadow_of in Hp.
  eapply hoare_bind; [apply away_CreateDir|intros [path err] Hpath]. cbn [fst snd] in Hpath.
  destruct err; [by apply hoare_ret|]. rewrite (Hpath eq_refl).
  eapply hoare_bind; [apply away_KeyRead|intros [k err] _].
  destruct err; [by apply hoare_ret|].
  eapply hoare_bind; [apply away_CheckInit|intros [r err] _].
  destruct err; [by apply hoare_ret|].
  eapply hoare_bind with (Q := fun _ => True).
  { destruct r; [by apply away_Update|by apply away_Init]. }
  intros [r' err] _.
  eapply hoare_bind with (Q := fun d => dst = Some d); [by apply hoare_deref|].
  intros d ->. specialize (Hu d Hd).
  eapply hoare_bind; [apply away_KeyRead|intros [k' err'] _].
  destruct err'; [by apply hoare_ret|].
  eapply hoare_bind; [by apply away_Push|intros err' _].
  destruct err'; by apply hoare_ret.
Qed.
End Footprint.

(** X7.  A sync of a pair writes to no directory other than the shadow of
    its source and to no upstream repository other than its
    destination, however it ends. *)
Theorem sync_touches_only_its_shadow_and_destination rsc so src dst env w p u :
  getRepositoryAccess_range (Repositories rsc) (SourceName so) = Val (Some src) ->
  getRepositoryAccess_range (Repositories rsc) (DestinationName so) = Val (Some dst) ->
  p <> shadow_of rsc src ->
  u <> RepoUrl dst ->
  disk (doRepositoriesSync rsc (Some so) env w).2 !! p = disk w !! p
  /\ upstream (doRepositoriesSync rsc (Some so) env w).2 !! u = upstream w !! u.
Proof.
  intros Hs Hd Hp Hu.
  apply (away_doRepositoriesSync p u (disk w !! p) (upstream w !! u) rsc so).
  - intros s Hs'. rewrite Hs in Hs'. injection Hs' as <-. congruence.
  - intros d Hd'. rewrite Hd in Hd'. injection Hd' as <-. congruence.
  - done.
Qed.

Lemma sync_touches_only_its_shadow_and_destination_witness :
  let w1 := (doRepositoriesSync Fixtures.rsc (Some Fixtures.pair) Fixtures.env_ok
               Fixtures.w0).2 in
  disk w1 !! "/var/shadows/other" = disk Fixtures.w0 !! "/var/shadows/other"
  /\ upstream w1 !! RepoUrl Fixtures.alpha = upstream Fixtures.w0 !! RepoUrl Fixtures.alpha.
Proof.
  apply (sync_touches_only_its_shadow_and_destination Fixtures.rsc Fixtures.pair
           Fixtures.alpha Fixtures.beta Fixtures.env_ok Fixtures.w0);
    [reflexivity|reflexivity| |]; intros E; vm_compute in E; discriminate E.
Defined.

(** ** The references after a sync *)
Lemma push_update_mirror env url o refs rrefs :
  po_RefSpecs o = [mirrorRefSpec] ->
  Git.push_update env url o refs rrefs
  = Git.mirror_update (push_refused env url) (fun _ => true) refs rrefs.
Proof. intros Ho. unfold Git.push_update. rewrite Ho. by destruct (decide _). Qed.

(** A push step that succeeds has put the references of the shadow
    under [refs/] into the repository at the URL. *)
Lemma Push_success_upstream rr url keys env w w' :
  repositoryShadowPushToNewOrigin (Some rr) url keys env w = (Val None, w') ->
  exists d0,
    upstream w !! url = Some d0
    /\ upstream w' = <[url := (Git.mirror_merge
                                 (References (Git.storage_at w (Storer rr))) d0).2]>
                       (upstream w)
    /\ disk w' = disk w
    /\ transport_err env url keys = None
    /\ config_read_err env (Storer rr) = None.
Proof.
  rewrite Push_run.
  destruct (config_read_err env (Storer rr)) eqn:Hc; [discriminate|].
  destruct (Remotes _ !! DefaultRemoteName) as [rc|] eqn:Hrc; [|discriminate].
  rewrite Remote_Push_run. cbv zeta.
  cbn [rewired r_c r_s URLs pushOptions po_Auth po_RefSpecs].
  destruct (negb _); [by destruct (decide _)|].
  destruct (transport_err env url keys) eqn:Ht; [by destruct (decide _)|].
  destruct (upstream w !! url) as [d0|]; [|by destruct (decide _)].
  rewrite push_update_mirror by reflexivity.
  destruct (mirror_update_cases (push_refused env url) (fun _ => true)
              (References (Git.storage_at w (Storer rr))) d0) as [E|[msg E]]; rewrite E.
  2: { cbn [fst]. by destruct (decide _). }
  intros H. exists d0.
  assert (w' = with_upstream
                 (<[url := (Git.mirror_merge
                              (References (Git.storage_at w (Storer rr))) d0).2]>
                    (upstream w))
                 (log (EvPush (Storer rr) [url] [mirrorRefSpec]) w)) as ->.
  { destruct (Git.mirror_merge _ d0).1 as [e|].
    - destruct (decide _); [|discriminate]. by injection H as <-.
    - by injection H as <-. }
  by repeat split.
Qed.

(** The push, run forward on a shadow that stores [origin], where the
    other side refuses none of the references to write. *)
Lemma Push_fwd rr url keys env w rc d0 :
  config_read_err env (Storer rr) = None ->
  Remotes (Git.storage_at w (Storer rr)) !! DefaultRemoteName = Some rc ->
  Name rc = DefaultRemoteName ->
  transport_err env url keys = None ->
  upstream w !! url = Some d0 ->
  (forall n h, Git.pending (References (Git.storage_at w (Storer rr))) d0 !! n = Some h ->
               push_refused env url n = None) ->
  exists w',
    repositoryShadowPushToNewOrigin (Some rr) url keys env w = (Val None, w')
    /\ disk w' = disk w
    /\ upstream w' = <[url := (Git.mirror_merge
                                 (References (Git.storage_at w (Storer rr))) d0).2]>
                       (upstream w).
Proof.
  intros Hc Hrc Hn Ht Hu Hok. rewrite Push_run, Hc, Hrc, Remote_Push_run. cbv zeta.
  cbn [rewired r_c r_s URLs Name pushOptions po_Auth po_RemoteName po_RefSpecs].
  rewrite Hn, Ht, Hu, push_update_mirror by reflexivity.
  rewrite (mirror_update_accepted _ _ _ _ Hok).
  change (negb (String.eqb (if String.eqb "" "" then DefaultRemoteName else "")
                  DefaultRemoteName)) with false. cbv iota.
  destruct (mirror_merge_tolerated (References (Git.storage_at w (Storer rr))) d0)
    as [E|E]; rewrite E.
  - eexists. split; [reflexivity|]. by split.
  - destruct (decide (NoErrAlreadyUpToDate = NoErrAlreadyUpToDate)); [|done].
    eexists. split; [reflexivity|]. by split.
Qed.

(** What a step that succeeds on a shadow of the program's own has
    done: it has fetched the references of the source under [refs/]
    over those, if any, that the shadow had. *)
Lemma step_success_refs path url keys env w rr w4 :
  own_shadow w path url ->
  initOrUpdate (checked w path) path url keys env w = (Val (Some rr, None), w4) ->
  exists rrefs refs0,
    upstream w !! url = Some rrefs /\ rrefs <> ∅
    /\ transport_err env url keys = None
    /\ config_read_err env path = None
    /\ disk w4 = <[path := {| Remotes := {[DefaultRemoteName := sourceRemote url]};
                              References := (Git.mirror_merge rrefs refs0).2 |}]> (disk w)
    /\ upstream w4 = upstream w.
Proof.
  intros Hown H. unfold checked in H.
  destruct (disk w !! path) as [st|] eqn:Hd; cbn [initOrUpdate] in H.
  - destruct (Update_success_env _ _ _ _ _ _ _ H) as [_ Hc].
    apply Update_inv in H. destruct H as [[H|[e H]]|[_ H]]; [discriminate..|].
    destruct H as (st0 & rc & url0 & urls & rrefs & Hst0 & Hrc & Hurls & Hu & Hne & Ht
                   & Htol & Hd4 & Hu4 & _).
    rewrite Hd in Hst0. injection Hst0 as <-.
    rewrite (Hown st Hd) in Hrc, Hd4. rewrite lookup_singleton_eq in Hrc.
    injection Hrc as <-. cbn [sourceRemote URLs] in Hurls. injection Hurls as <- <-.
    rewrite fetch_update_mirror in Htol, Hd4 by reflexivity.
    rewrite (mirror_update_success _ _ _ _ Htol) in Hd4.
    exists rrefs, (References st). by repeat split.
  - pose proof (Init_success_env _ _ _ _ _ _ _ H) as Hc.
    apply Init_inv in H. destruct H as [[e H]|[_ H]]; [discriminate|].
    destruct H as (_ & rrefs & Hu & Hne & Ht & Hd4 & Hu4 & _).
    exists rrefs, ∅. by repeat split.
Qed.

(** What the environment must have granted to a sync that succeeded. *)
Lemma sync_success_env rsc so src dst env w w' :
  getRepositoryAccess_range (Repositories rsc) (SourceName so) = Val (Some src) ->
  getRepositoryAccess_range (Repositories rsc) (DestinationName so) = Val (Some dst) ->
  doRepositoriesSync rsc (Some so) env w = (Val None, w') ->
  mkdir_err env (shadow_of rsc src) 644 = None
  /\ key_failure env src = None
  /\ open_err env (shadow_of rsc src) = None
  /\ key_failure env dst = None.
Proof.
  intros Hs Hd H. rewrite (sync_run _ _ _ _ _ _ Hs Hd) in H. cbv zeta in H.
  destruct (mkdir_err env _ 644); [discriminate|].
  destruct (key_failure env src); [discriminate|].
  destruct (open_err env _); [discriminate|].
  destruct (initOrUpdate _ _ _ _ env _) as [[[r err]|] w4]; [|discriminate].
  rewrite pushStage_run in H. destruct (key_failure env dst); [discriminate|]. done.
Qed.

Lemma mirror_refs_lookup (m : gmap string string) n h :
  String.prefix "refs/" n = true -> m !! n = Some h -> Git.mirror_refs m !! n = Some h.
Proof. intros Hp Hm. unfold Git.mirror_refs. by apply map_lookup_filter_Some. Qed.

Lemma mirror_refs_outside (m : gmap string string) n :
  String.prefix "refs/" n = false -> Git.mirror_refs m !! n = None.
Proof.
  intros Hp. unfold Git.mirror_refs. apply map_lookup_filter_None. right.
  intros x _. cbn. congruence.
Qed.

(** X8.  After a successful sync on a shadow of the program's own, every
    reference that the source had under [refs/] is in the shadow and in
    the destination, with the same hash; the destination has lost no
    reference name, and its references outside [refs/] are as they
    were. *)
Theorem successful_sync_mirrors_source rsc so src dst env w w' :
  getRepositoryAccess_range (Repositories rsc) (SourceName so) = Val (Some src) ->
  getRepositoryAccess_range (Repositories rsc) (DestinationName so) = Val (Some dst) ->
  own_shadow w (shadow_of rsc src) (RepoUrl src) ->
  doRepositoriesSync rsc (Some so) env w = (Val None, w') ->
  exists rrefs d0 d',
    upstream w !! RepoUrl src = Some rrefs
    /\ upstream w !! RepoUrl dst = Some d0
    /\ upstream w' !! RepoUrl dst = Some d'
    /\ (forall n h, String.prefix "refs/" n = true -> rrefs !! n = Some h ->
          References (Git.storage_at w' (shadow_of rsc src)) !! n = Some h
          /\ d' !! n = Some h)
    /\ (forall n, is_Some (d0 !! n) -> is_Some (d' !! n))
    /\ (forall n, String.prefix "refs/" n = false -> d' !! n = d0 !! n).
Proof.
  intros Hs Hd Hown H. apply sync_success_inv in H.
  destruct H as (src' & dst' & w4 & Hs' & Hd' & Hstep & Hpush).
  rewrite Hs in Hs'. injection Hs' as <-. rewrite Hd in Hd'. injection Hd' as <-.
  apply (step_success_refs _ _ _ _
           (log (EvPlainOpen (shadow_of rsc src))
              (log (key_event src) (log (EvMkdirAll (shadow_of rsc src) 644) w))))
    in Hstep; [|exact Hown].
  destruct Hstep as (rrefs & refs0 & Hu & Hne & Ht & Hc & Hd4 & Hu4).
  cbn [log disk upstream] in Hu, Hd4, Hu4.
  apply Push_success_upstream in Hpush.
  destruct Hpush as (d0 & Hu0 & Hu' & Hdisk & _). cbn [log disk upstream Storer] in *.
  rewrite (storage_at_insert (log (key_event dst) w4) (disk w) _ _ Hd4) in Hu'.
  cbn [References] in Hu'.
  rewrite Hu4 in Hu0, Hu'.
  exists rrefs, d0, (Git.mirror_merge (Git.mirror_merge rrefs refs0).2 d0).2.
  split; [done|]. split; [done|]. split; [by rewrite Hu', lookup_insert_eq|].
  assert (Git.storage_at w' (shadow_of rsc src)
          = {| Remotes := {[DefaultRemoteName := sourceRemote (RepoUrl src)]};
               References := (Git.mirror_merge rrefs refs0).2 |}) as ->.
  { apply (storage_at_insert _ (disk w)). by rewrite Hdisk. }
  cbn [References Git.mirror_merge snd]. split; [|split].
  - intros n h Hp Hn.
    assert ((Git.mirror_refs rrefs ∪ refs0) !! n = Some h) as Hl
      by (apply lookup_union_Some_l; by apply mirror_refs_lookup).
    split; [done|]. apply lookup_union_Some_l. by apply mirror_refs_lookup.
  - intros n Hn. apply lookup_union_is_Some. by right.
  - intros n Hp. apply lookup_union_r. by apply mirror_refs_outside.
Qed.

(** A fresh machine has no shadow that is not the program's own. *)
Lemma own_shadow_fresh url : own_shadow Fixtures.w0 (shadow_of Fixtures.rsc Fixtures.alpha) url.
Proof.
  intros st H. unfold Fixtures.w0 in H. cbn [disk] in H.
  rewrite lookup_empty in H. discriminate.
Defined.

Lemma successful_sync_mirrors_source_witness :
  let w1 := (doRepositoriesSync Fixtures.rsc (Some Fixtures.pair) Fixtures.env_ok
               Fixtures.w0).2 in
  exists d',
    upstream w1 !! RepoUrl Fixtures.beta = Some d'
    /\ d' !! "refs/heads/main" = Some "1f3a"
    /\ d' !! "refs/heads/feature-x" = Some "77c0".
Proof.
  intros w1.
  destruct (successful_sync_mirrors_source Fixtures.rsc Fixtures.pair Fixtures.alpha
              Fixtures.beta Fixtures.env_ok Fixtures.w0 w1 eq_refl eq_refl
              (own_shadow_fresh _) first_sync_succeeds)
    as (rrefs & d0 & d' & Hr & _ & Hd' & Hall & _).
  assert (rrefs = {[ "HEAD" := "1f3a"; "refs/heads/main" := "1f3a";
                     "refs/heads/feature-x" := "77c0" ]}) as ->.
  { assert (upstream Fixtures.w0 !! RepoUrl Fixtures.alpha
            = Some {[ "HEAD" := "1f3a"; "refs/heads/main" := "1f3a";
                      "refs/heads/feature-x" := "77c0" ]}) as E
      by (vm_compute; reflexivity).
    rewrite E in Hr. by injection Hr. }
  exists d'. split; [exact Hd'|]. split.
  - apply (Hall "refs/heads/main" "1f3a"); vm_compute; reflexivity.
  - apply (Hall "refs/heads/feature-x" "77c0"); vm_compute; reflexivity.
Defined.

(** ** A sync run again *)

(** X9.  A sync that succeeded on a shadow of the program's own, with a
    destination at another URL than the source, succeeds again when it
    is run again in the same environment, and the second run changes
    neither the disk nor any repository. *)
Theorem sync_again_changes_nothing rsc so src dst env w w1 :
  getRepositoryAccess_range (Repositories rsc) (SourceName so) = Val (Some src) ->
  getRepositoryAccess_range (Repositories rsc) (DestinationName so) = Val (Some dst) ->
  own_shadow w (shadow_of rsc src) (RepoUrl src) ->
  RepoUrl src <> RepoUrl dst ->
  doRepositoriesSync rsc (Some so) env w = (Val None, w1) ->
  exists w2,
    doRepositoriesSync rsc (Some so) env w1 = (Val None, w2)
    /\ disk w2 = disk w1
    /\ upstream w2 = upstream w1.
Proof.
  intros Hs Hd Hown Hne H.
  destruct (sync_success_env _ _ _ _ _ _ _ Hs Hd H) as (Hmk & Hks & Hop & Hkd).
  apply sync_success_inv in H.
  destruct H as (src' & dst' & w4 & Hs' & Hd' & Hstep & Hpush).
  rewrite Hs in Hs'. injection Hs' as <-. rewrite Hd in Hd'. injection Hd' as <-.
  apply (step_success_refs _ _ _ _
           (log (EvPlainOpen (shadow_of rsc src))
              (log (key_event src) (log (EvMkdirAll (shadow_of rsc src) 644) w))))
    in Hstep; [|exact Hown].
  destruct Hstep as (rrefs & refs0 & Hu & Hrr & Ht & Hc & Hd4 & Hu4).
  cbn [log disk upstream] in Hu, Hd4, Hu4.
  apply Push_success_upstream in Hpush.
  destruct Hpush as (d0 & Hu0 & Hu1 & Hd1 & Htd & _). cbn [log disk upstream Storer] in *.
  rewrite (storage_at_insert (log (key_event dst) w4) (disk w) _ _ Hd4) in Hu1.
  cbn [References] in Hu1. rewrite Hu4 in Hu0, Hu1. rewrite Hd4 in Hd1.
  set (path := shadow_of rsc src) in *.
  set (refs1 := (Git.mirror_merge rrefs refs0).2) in *.
  set (st1 := {| Remotes := {[DefaultRemoteName := sourceRemote (RepoUrl src)]};
                 References := refs1 |}) in *.
  set (d1 := (Git.mirror_merge refs1 d0).2) in *.
  rewrite (sync_run _ _ _ _ _ _ Hs Hd). cbv zeta. fold path.
  rewrite Hmk, Hks, Hop.
  assert (checked w1 path = Some {| Storer := path |}) as ->
    by (unfold checked; by rewrite Hd1, lookup_insert_eq).
  cbn [initOrUpdate].
  set (w3 := log (EvPlainOpen path) (log (key_event src) (log (EvMkdirAll path 644) w1))).
  assert (disk w3 !! path = Some st1) as Hd3
    by (subst w3; cbn [log disk]; by rewrite Hd1, lookup_insert_eq).
  assert (Remotes st1 !! DefaultRemoteName = Some (sourceRemote (RepoUrl src))) as Hrc
    by (subst st1; cbn [Remotes]; by rewrite lookup_singleton_eq).
  assert (upstream w3 !! RepoUrl src = Some rrefs) as Hu3
    by (subst w3; cbn [log upstream]; by rewrite Hu1, lookup_insert_ne).
  rewrite (Update_fwd _ path (keys_of src) env w3 st1 (sourceRemote (RepoUrl src))
             (RepoUrl src) [] rrefs Hop Hd3 Hc Hrc eq_refl Ht Hu3 Hrr).
  cbv zeta. rewrite fetch_update_mirror by reflexivity.
  subst st1. cbn [References Remotes]. subst refs1. rewrite mirror_update_idem.
  cbn [fst snd]. destruct (decide (NoErrAlreadyUpToDate = NoErrAlreadyUpToDate)); [|done].
  rewrite pushStage_run, Hkd.
  set (refs1 := (Git.mirror_merge rrefs refs0).2) in *.
  set (st1 := {| Remotes := {[DefaultRemoteName := sourceRemote (RepoUrl src)]};
                 References := refs1 |}) in *.
  match goal with |- context [repositoryShadowPushToNewOrigin _ _ _ env ?wx] =>
    set (w5 := wx) end.
  assert (disk w5 = disk w1) as Hd5.
  { subst w5 w3. cbn [log with_disk disk]. by rewrite Hd1, insert_insert_eq. }
  assert (upstream w5 = upstream w1) as Hu5 by reflexivity.
  assert (Git.storage_at w5 path = st1) as Hst5
    by (apply (storage_at_insert w5 (disk w)); by rewrite Hd5).
  assert (Remotes (Git.storage_at w5 path) !! DefaultRemoteName
          = Some (sourceRemote (RepoUrl src))) as Hrc5 by (by rewrite Hst5).
  assert (upstream w5 !! RepoUrl dst = Some d1) as Hud
    by (by rewrite Hu5, Hu1, lookup_insert_eq).
  assert (forall n h,
            Git.pending (References (Git.storage_at w5 path)) d1 !! n = Some h ->
            push_refused env (RepoUrl dst) n = None) as Hok.
  { intros n h. rewrite Hst5. subst st1 d1. cbn [References].
    by rewrite pending_merged, lookup_empty. }
  destruct (Push_fwd {| Storer := path |} (RepoUrl dst) (keys_of dst) env w5
              (sourceRemote (RepoUrl src)) d1 Hc Hrc5 eq_refl Htd Hud Hok)
    as (w2 & Hrun & Hd2 & Hu2).
  exists w2. split; [exact Hrun|]. split; [by rewrite Hd2|].
  rewrite Hu2, Hu5. cbn [Storer]. rewrite Hst5.
  subst st1 d1. cbn [References]. rewrite mirror_merge_idem. cbn [snd].
  by rewrite Hu1, insert_insert_eq.
Qed.

Lemma sync_again_changes_nothing_witness :
  let w1 := (doRepositoriesSync Fixtures.rsc (Some Fixtures.pair) Fixtures.env_ok
               Fixtures.w0).2 in
  exists w2,
    doRepositoriesSync Fixtures.rsc (Some Fixtures.pair) Fixtures.env_ok w1 = (Val None, w2)
    /\ disk w2 = disk w1
    /\ upstream w2 = upstream w1.
Proof.
  intros w1.
  apply (sync_again_changes_nothing Fixtures.rsc Fixtures.pair Fixtures.alpha
           Fixtures.beta Fixtures.env_ok Fixtures.w0 w1 eq_refl eq_refl
           (own_shadow_fresh _)).
  - intros E. vm_compute in E. discriminate E.
  - exact first_sync_succeeds.
Defined.

(** ** The shadow directory among the others *)
Lemma string_app_cons x (a b : string) : String x a ++ b = String x (a ++ b).
Proof. reflexivity. Qed.

Lemma string_app_assoc (a b c : string) : (a ++ b) ++ c = a ++ b ++ c.
Proof.
  induction a as [|x a IH]; [reflexivity|]. by rewrite !string_app_cons, IH.
Qed.

Lemma string_app_inv_head (a b c : string) : a ++ b = a ++ c -> b = c.
Proof.
  induction a as [|x a IH]; [done|]. rewrite !string_app_cons. intros [= H]. auto.
Qed.

Lemma split_nonempty s : Filepath.split s <> [].
Proof.
  destruct s as [|c s]; cbn [Filepath.split]; [done|].
  destruct (Ascii.eqb c Filepath.Separator); [done|].
  by destruct (Filepath.split s).
Qed.

Lemma split_app a d :
  Filepath.split (a ++ "/" ++ d) = (Filepath.split a ++ Filepath.split d)%list.
Proof.
  induction a as [|c a IH].
  - reflexivity.
  - rewrite string_app_cons. cbn [Filepath.split].
    destruct (Ascii.eqb c Filepath.Separator); [by rewrite IH|].
    rewrite IH. pose proof (split_nonempty a) as Hne.
    by destruct (Filepath.split a).
Qed.

Lemma split_name d :
  (forall c, In c (list_ascii_of_string d) -> c <> Filepath.Separator) ->
  Filepath.split d = [d].
Proof.
  induction d as [|c d IH]; cbn [Filepath.split list_ascii_of_string In]; [done|].
  intros H. rewrite (proj2 (Ascii.eqb_neq c Filepath.Separator)) by auto.
  by rewrite IH by auto.
Qed.

Lemma step_name rooted out d :
  d <> "" -> d <> "." -> d <> ".." -> Filepath.step rooted out d = d :: out.
Proof.
  intros H0 H1 H2. unfold Filepath.step.
  by rewrite (proj2 (String.eqb_neq d "")), (proj2 (String.eqb_neq d ".")),
    (proj2 (String.eqb_neq d "..")).
Qed.

Lemma join_snoc x l d :
  Filepath.join "/" ((x :: l) ++ [d]) = Filepath.join "/" (x :: l) ++ "/" ++ d.
Proof.
  revert x. induction l as [|y l IH]; intros x; [reflexivity|].
  change (Filepath.join "/" ((x :: y :: l) ++ [d]))
    with (x ++ "/" ++ Filepath.join "/" ((y :: l) ++ [d])).
  rewrite IH.
  change (Filepath.join "/" (x :: y :: l)) with (x ++ "/" ++ Filepath.join "/" (y :: l)).
  by rewrite !string_app_assoc.
Qed.

(** [filepath.Join] of a base path and a plain name: the name is the
    last element of the result, behind a prefix that the base path
    alone determines. *)
Lemma Join_name b :
  exists dir,
    (dir = "" \/ exists d', dir = d' ++ "/")
    /\ forall d,
         d <> "" -> d <> "." -> d <> ".." ->
         (forall c, In c (list_ascii_of_string d) -> c <> Filepath.Separator) ->
         Filepath.Join [b; d] = dir ++ d.
Proof.
  destruct b as [|c0 b].
  - exists "". split; [by left|]. intros d H0 H1 H2 Hc.
    cbn [Filepath.Join]. change (String.eqb "" "") with true. cbv iota.
    rewrite (proj2 (String.eqb_neq d "")) by done. cbn [Filepath.join].
    destruct d as [|c d]; [done|]. unfold Filepath.Clean.
    rewrite (proj2 (Ascii.eqb_neq c Filepath.Separator)) by (apply Hc; by left).
    rewrite split_name by done. cbn [fold_left]. by rewrite step_name.
  - set (rooted := Ascii.eqb c0 Filepath.Separator).
    set (l := rev (fold_left (Filepath.step rooted) (Filepath.split (String c0 b)) [])).
    exists (if rooted
            then String Filepath.Separator
                   match l with [] => "" | _ => Filepath.join "/" l ++ "/" end
            else match l with [] => "" | _ => Filepath.join "/" l ++ "/" end).
    split.
    + destruct rooted, l as [|x l']; auto.
      * right. by exists "".
      * right. by exists (String Filepath.Separator (Filepath.join "/" (x :: l'))).
      * right. by exists (Filepath.join "/" (x :: l')).
    + intros d H0 H1 H2 Hc.
      change (Filepath.Join [String c0 b; d])
        with (Filepath.Clean (String c0 b ++ "/" ++ d)).
      change (String c0 b ++ "/" ++ d) with (String c0 (b ++ "/" ++ d)).
      unfold Filepath.Clean. fold rooted.
      change (String c0 (b ++ "/" ++ d)) with (String c0 b ++ "/" ++ d).
      rewrite split_app, (split_name d), fold_left_app by done.
      cbn [fold_left]. rewrite step_name by done. cbn [rev]. fold l.
      destruct rooted, l as [|x l'].
      * reflexivity.
      * rewrite join_snoc.
        change (String Filepath.Separator (Filepath.join "/" (x :: l') ++ "/") ++ d)
          with (String Filepath.Separator ((Filepath.join "/" (x :: l') ++ "/") ++ d)).
        by rewrite string_app_assoc.
      * reflexivity.
      * rewrite join_snoc. by rewrite string_app_assoc.
Qed.

Lemma digest_is_name u :
  let d := Hex.EncodeToString (Sha256.sum (Sha256.bytes_of_string u)) in
  d <> "" /\ d <> "." /\ d <> ".."
  /\ forall c, In c (list_ascii_of_string d) -> c <> Filepath.Separator.
Proof.
  intros d.
  assert (String.length d = 64) as Hlen
    by (subst d; rewrite EncodeToString_length, sum_length; reflexivity).
  split; [|split; [|split]]; try (intros E; rewrite E in Hlen; discriminate).
  intros c Hin. apply EncodeToString_lowercase in Hin. intros ->.
  cbn in Hin. intuition discriminate.
Qed.

(** X10.  The shadow directory is named by the digest of the source URL,
    behind a prefix that only the base path determines: it is that
    prefix followed by the 64 digits.  So under one base path two
    sources share a shadow directory exactly when the digests of their
    URLs are the same. *)
Theorem shadow_path_ends_in_digest b :
  exists dir,
    (dir = "" \/ exists d', dir = d' ++ "/")
    /\ (forall u, sourceClonePath_of u b
                  = dir ++ Hex.EncodeToString (Sha256.sum (Sha256.bytes_of_string u)))
    /\ (forall u1 u2,
          sourceClonePath_of u1 b = sourceClonePath_of u2 b
          <-> Hex.EncodeToString (Sha256.sum (Sha256.bytes_of_string u1))
              = Hex.EncodeToString (Sha256.sum (Sha256.bytes_of_string u2))).
Proof.
  destruct (Join_name b) as (dir & Hdir & HJ). exists dir.
  assert (forall u, sourceClonePath_of u b
                    = dir ++ Hex.EncodeToString (Sha256.sum (Sha256.bytes_of_string u)))
    as Hpath.
  { intros u. destruct (digest_is_name u) as (H0 & H1 & H2 & Hc).
    unfold sourceClonePath_of. cbv zeta. by apply HJ. }
  split; [exact Hdir|]. split; [exact Hpath|].
  intros u1 u2. rewrite !Hpath. split.
  - apply string_app_inv_head.
  - by intros ->.
Qed.

Lemma shadow_path_ends_in_digest_witness :
  exists dir,
    sourceClonePath_of (RepoUrl Fixtures.alpha) "/var/shadows"
    = dir ++ Hex.EncodeToString (Sha256.sum (Sha256.bytes_of_string (RepoUrl Fixtures.alpha)))
    /\ (sourceClonePath_of (RepoUrl Fixtures.alpha) "/var/shadows"
        = sourceClonePath_of (RepoUrl Fixtures.beta) "/var/shadows" -> False).
Proof.
  destruct (shadow_path_ends_in_digest "/var/shadows") as (dir & _ & Hpath & Hiff).
  exists dir. split; [apply Hpath|].
  intros E. apply Hiff in E. vm_compute in E. discriminate E.
Defined.

(** ** What a sync writes upstream *)

(** Neither transition writes to a repository it fetches from. *)
Lemma step_upstream r path url keys env w :
  upstream (initOrUpdate r path url keys env w).2 = upstream w.
Proof.
  apply map_eq. intros u.
  assert (path <> String "x" path) as Hne.
  { intros E. apply (f_equal String.length) in E. cbn [String.length] in E. lia. }
  destruct r as [rr|]; cbn [initOrUpdate].
  - by destruct (away_Update (String "x" path) u (disk w !! String "x" path)
                   (upstream w !! u) (Some rr) path keys Hne env w (conj eq_refl eq_refl))
      as [[_ Hu] _].
  - by destruct (away_Init (String "x" path) u (disk w !! String "x" path)
                   (upstream w !! u) path url keys Hne env w (conj eq_refl eq_refl))
      as [[_ Hu] _].
Qed.

(** The push step writes upstream only in the call that connects to
    the destination, its last: when it panics, or ends without that
    call being the last one recorded, it has written nothing. *)
Lemma Push_unconnected_upstream r url keys env w :
  (repositoryShadowPushToNewOrigin r url keys env w).1 = Panic
  \/ (forall p urls specs,
        last (trace (repositoryShadowPushToNewOrigin r url keys env w).2)
        <> Some (EvPush p urls specs)) ->
  upstream (repositoryShadowPushToNewOrigin r url keys env w).2 = upstream w.
Proof.
  destruct r as [rr|]; [|by rewrite Push_nil].
  rewrite Push_run.
  destruct (config_read_err env (Storer rr)); [done|].
  destruct (Remotes _ !! DefaultRemoteName) as [rc|]; [|done].
  rewrite Remote_Push_run. cbv zeta.
  cbn [rewired r_c r_s URLs pushOptions po_Auth po_RefSpecs].
  destruct (negb _); [by destruct (decide _)|].
  destruct (transport_err env url keys); [by destruct (decide _)|].
  destruct (upstream w !! url) as [d0|]; [|by destruct (decide _)].
  rewrite push_update_mirror by reflexivity.
  destruct (Git.mirror_update _ _ _ d0) as [[e|] d1]; cbn [fst snd];
    [destruct (decide (e = NoErrAlreadyUpToDate))|];
    (intros [H|H]; [discriminate|]; exfalso;
     apply (H (Storer rr) [url] [mirrorRefSpec]);
     cbn [snd trace with_upstream log]; apply last_snoc).
Qed.

(** A push of which the destination refuses one reference: the sync
    returns the error of the refusal, and the destination has got the
    other reference. *)
Example refused_push_is_partial :
  let res := doRepositoriesSync Fixtures.rsc (Some Fixtures.pair) env_guarded w_diverged in
  res.1 = Val (Some (ErrOther "non-fast-forward"))
  /\ upstream res.2 !! RepoUrl Fixtures.beta
     = Some {[ "refs/heads/main" := "c4d1"; "refs/heads/feature-x" := "77c0" ]}.
Proof. intros res. split; vm_compute; reflexivity. Qed.

(** X11.  A sync writes to the upstream repositories only in the push
    call that connects to the destination, the last call it makes: when
    it panics, or ends without that call being the last one recorded
    (on an error of the directory, of a key, of the open, or of the
    configuration), every upstream repository, the destination among
    them, holds what it held before. *)
Theorem sync_writes_upstream_only_by_push rsc so env w :
  (doRepositoriesSync rsc so env w).1 = Panic
  \/ (forall p urls specs,
        last (trace (doRepositoriesSync rsc so env w).2) <> Some (EvPush p urls specs)) ->
  upstream (doRepositoriesSync rsc so env w).2 = upstream w.
Proof.
  destruct so as [so|]; [|reflexivity].
  destruct (getRepositoryAccess_range (Repositories rsc) (SourceName so))
    as [[src|]|] eqn:Hs.
  - destruct (getRepositoryAccess_range (Repositories rsc) (DestinationName so))
      as [dst|] eqn:Hd.
    + rewrite (sync_run _ _ _ _ _ _ Hs Hd). cbv zeta.
      destruct (mkdir_err env _ 644); [done|].
      destruct (key_failure env src); [done|].
      destruct (open_err env _); [done|].
      pose proof (step_upstream (checked w (shadow_of rsc src)) (shadow_of rsc src)
                    (RepoUrl src) (keys_of src) env
                    (log (EvPlainOpen (shadow_of rsc src))
                       (log (key_event src)
                          (log (EvMkdirAll (shadow_of rsc src) 644) w)))) as Hu.
      destruct (initOrUpdate _ _ _ _ env _) as [[[r err]|] w4]; [|exact (fun _ => Hu)].
      cbn [snd log upstream] in Hu.
      destruct dst as [dst|]; [|by rewrite pushStage_nil].
      rewrite pushStage_run. destruct (key_failure env dst); [done|].
      intros H. by rewrite (Push_unconnected_upstream _ _ _ _ _ H).
    + intros _. unfold doRepositoriesSync, getRepositoryAccess. cbn [deref].
      rewrite bind_run, ret_run. cbv beta iota.
      rewrite bind_run, Hs. cbv beta iota. by rewrite bind_run, Hd.
  - intros _. unfold doRepositoriesSync, getRepositoryAccess. cbn [deref].
    destruct (lookup_miss_total _ _ (DestinationName so) Hs) as [x Hx].
    rewrite bind_run, ret_run. cbv beta iota.
    rewrite bind_run, Hs. cbv beta iota. by rewrite bind_run, Hx.
  - intros _. unfold doRepositoriesSync, getRepositoryAccess. cbn [deref].
    rewrite bind_run, ret_run. cbv beta iota. by rewrite bind_run, Hs.
Qed.

Lemma sync_writes_upstream_only_by_push_witness :
  upstream (doRepositoriesSync Fixtures.rsc (Some Fixtures.pair) env_no_beta_key
              Fixtures.w0).2
  = upstream Fixtures.w0.
Proof.
  apply sync_writes_upstream_only_by_push. right. intros p urls specs.
  assert (last (trace (doRepositoriesSync Fixtures.rsc (Some Fixtures.pair) env_no_beta_key
                         Fixtures.w0).2)
          = Some (key_event Fixtures.beta)) as -> by (vm_compute; reflexivity).
  discriminate.
Defined.

(** ** The push step without a stored [origin] *)

(** X12.  The push step tolerates the remote-not-found error of the lookup
    and then dereferences the remote it did not get.  It panics in
    exactly two cases: on a [nil] repository, and on a repository whose
    configuration can be read and holds no remote [origin]; the URL list
    it has just assigned is never empty, so the connection itself does
    not panic. *)
Theorem push_panics_iff r url keys env w :
  (repositoryShadowPushToNewOrigin r url keys env w).1 = Panic
  <-> r = None
      \/ exists rr, r = Some rr
                    /\ config_read_err env (Storer rr) = None
                    /\ Remotes (Git.storage_at w (Storer rr)) !! DefaultRemoteName = None.
Proof.
  destruct r as [rr|]; [|rewrite Push_nil; split; auto].
  rewrite Push_run.
  destruct (config_read_err env (Storer rr)) as [msg|] eqn:Hc.
  { split; [discriminate|]. intros [|(rr' & [= <-] & Hc' & _)]; congruence. }
  destruct (Remotes _ !! DefaultRemoteName) as [rc|] eqn:Hrc.
  - split; [|intros [|(rr' & [= <-] & _ & Hn)]; congruence].
    rewrite Remote_Push_run. cbv zeta.
    cbn [rewired r_c r_s URLs pushOptions po_Auth po_RefSpecs].
    destruct (negb _); [by destruct (decide _)|].
    destruct (transport_err env url keys); [by destruct (decide _)|].
    destruct (upstream w !! url) as [d0|]; [|by destruct (decide _)].
    destruct (Git.push_update _ _ _ _ _).1 as [e|]; [by destruct (decide _)|done].
  - split; [|done]. intros _. right. by exists rr.
Qed.

Lemma push_panics_iff_witness :
  (repositoryShadowPushToNewOrigin (Some {| Storer := Fixtures.shadow |})
     (RepoUrl Fixtures.beta) (keys_of Fixtures.beta) Fixtures.env_ok Fixtures.w0).1 = Panic.
Proof.
  apply (proj2 (push_panics_iff (Some {| Storer := Fixtures.shadow |})
                  (RepoUrl Fixtures.beta) (keys_of Fixtures.beta) Fixtures.env_ok
                  Fixtures.w0)).
  right. exists {| Storer := Fixtures.shadow |}.
  split; [reflexivity|]. split; [reflexivity|]. vm_compute. reflexivity.
Defined.
